(** * Koito: Spotify bulk import and Spotify image provider

    A shallow embedding of [internal/importer/spotify.go] (the bulk
    importer [ImportSpotifyFile]) and of the Spotify image client of
    package [images] ([SpotifyClient], its token handling, [searchEntity],
    [GetArtistImages] and [GetAlbumImages]), with the properties the
    specification states about them. Of the two revisions of the image
    client among the sources, the embedding follows the one that
    authenticates ([authenticate], [ensureToken]); the cascades of the two
    are the same.

    Conventions.
    - Go strings are byte strings: [string] (a list of [ascii]).
    - A Go [error] is [option string]: [None] is [nil], [Some m] an error
      whose message is [m]; [fmt.Errorf("p: %w", err)] prefixes the message.
    - [time.Time] is an instant in nanoseconds on a single time line (a
      [Z]); [time.Duration] is an int64 count of nanoseconds.
    - Code of other packages (catalog, cfg, romanizer, utils, the Go
      standard library's Unicode case tables, the network) is taken as a
      parameter of the section that uses it. *)

From Stdlib Require Import ZArith String Ascii List Bool Lia.
From stdpp Require Import base option list gmap strings pretty.

Local Open Scope Z_scope.

(** ** Package time *)

Module GoTime.

Definition Time := Z.
Definition Duration := Z.

Definition minDuration : Duration := - 2 ^ 63.
Definition maxDuration : Duration := 2 ^ 63 - 1.

Definition Nanosecond : Duration := 1.
Definition Millisecond : Duration := 1000000.
Definition Second : Duration := 1000000000.
Definition Minute : Duration := 60 * Second.

(** [t.Sub(u)]: the difference [t - u], saturated to the int64 range of
    [Duration] as the Go library does. *)
Definition Sub (t u : Time) : Duration :=
  let d := t - u in
  if d <? minDuration then minDuration
  else if maxDuration <? d then maxDuration
  else d.

Definition Add (t : Time) (d : Duration) : Time := t + d.

(** A product of durations is an int64 product: it wraps around. *)
Definition wrap64 (z : Z) : Duration := (z + 2 ^ 63) mod 2 ^ 64 - 2 ^ 63.

Definition After (t u : Time) : bool := u <? t.

(** The zero [Time] (January 1, year 1, 00:00 UTC), in nanoseconds
    from the Unix epoch. *)
Definition zeroTime : Time := - 62135596800 * Second.

End GoTime.

(** ** Package importer *)

Module Importer.

Record SpotifyExportItem := {
  Timestamp  : GoTime.Time;
  TrackName  : string;
  ArtistName : string;
  AlbumName  : string;
  ReasonEnd  : string;
  MsPlayed   : Z  (* int32 *)
}.

(** [catalog.SubmitListenOpts], the fields the importer fills in (the
    [MbzCaller] handle carries no data). *)
Record SubmitListenOpts := {
  Artist         : string;
  TrackTitle     : string;
  ReleaseTitle   : string;
  Duration       : Z;  (* int32 *)
  Time           : GoTime.Time;
  Client         : string;
  UserID         : Z;
  SkipCacheImage : bool
}.

(** What opening and decoding the import file gave. *)
Inductive FileContents :=
| OpenFails (err : string)
| DecodeFails (err : string)
| Decoded (export : list SpotifyExportItem).

Definition int32_range (z : Z) : Prop := - 2 ^ 31 <= z < 2 ^ 31.

(** [fmt.Errorf("ImportSpotifyFile: %w", err)] *)
Definition wrapErr (err : string) : string := "ImportSpotifyFile: " +:+ err.

(** The key of the per-file duplicate map. *)
Definition dedupKey (item : SpotifyExportItem) : string :=
  ArtistName item +:+ "|" +:+ TrackName item +:+ "|" +:+ AlbumName item.

(** [prevTime, exists := lastImported[key];
     exists && item.Timestamp.Sub(prevTime) < 5*time.Second] *)
Definition isDuplicate (lastImported : gmap string Z) (item : SpotifyExportItem) : bool :=
  match lastImported !! dedupKey item with
  | Some prevTime =>
      GoTime.Sub (Timestamp item) prevTime <? 5 * GoTime.Second
  | None => false
  end.

Section ImportLoop.

(** The catalog store and [catalog.SubmitListen]. *)
Variable Store : Type.
Variable SubmitListen : Store -> SubmitListenOpts -> Store * option string.
(** [inImportTimeWindow] and [finishImport] of this package (in files
    that are not part of the verified sources), and the configuration
    read through package cfg. *)
Variable inImportTimeWindow : GoTime.Time -> bool.
Variable finishImport : string -> nat -> option string.
Variable FetchImagesDuringImport : bool.
Variable ThrottleImportMs : Z.

(** The state the loop of [ImportSpotifyFile] threads through its
    iterations: the store, the duplicate map, and (as a record of the
    effects) the [SubmitListen] calls made and the throttle sleeps
    taken, oldest first. *)
Record LoopState := {
  store        : Store;
  lastImported : gmap string Z;
  calls        : list SubmitListenOpts;
  sleeps       : list GoTime.Duration
}.

Definition initState (s : Store) : LoopState :=
  {| store := s; lastImported := ∅; calls := []; sleeps := [] |}.

Definition mkOpts (item : SpotifyExportItem) : SubmitListenOpts :=
  let dur := MsPlayed item in
  {| Artist := ArtistName item;
     TrackTitle := TrackName item;
     ReleaseTitle := AlbumName item;
     Duration := Z.quot dur 1000;
     Time := Timestamp item;
     Client := "spotify";
     UserID := 1;
     SkipCacheImage := negb FetchImagesDuringImport |}.

(** [throttleFunc]: sleeps only when the configured delay is positive, for
    [time.Duration(ms) * time.Millisecond], an int64 product. The list
    holds the arguments of the calls of [time.Sleep]. *)
Definition throttle (sl : list GoTime.Duration) : list GoTime.Duration :=
  if 0 <? ThrottleImportMs
  then sl ++ [GoTime.wrap64 (ThrottleImportMs * GoTime.Millisecond)]
  else sl.

(** The filters a record passes before it is submitted. *)
Definition survives (st : LoopState) (item : SpotifyExportItem) : bool :=
  String.eqb (ReasonEnd item) "trackdone"
  && inImportTimeWindow (Timestamp item)
  && negb (String.eqb (TrackName item) "" || String.eqb (ArtistName item) "")
  && negb (isDuplicate (lastImported st) item).

(** One iteration of the loop body: [None] is `continue` (or falling
    off the end of the body), [Some e] is `return e`. *)
Definition loopBody (st : LoopState) (item : SpotifyExportItem)
  : LoopState * option string :=
  if negb (String.eqb (ReasonEnd item) "trackdone") then (st, None)
  else if negb (inImportTimeWindow (Timestamp item)) then (st, None)
  else if String.eqb (TrackName item) "" || String.eqb (ArtistName item) ""
  then (st, None)
  else
    let key := dedupKey item in
    if isDuplicate (lastImported st) item then (st, None)
    else
      let opts := mkOpts item in
      let '(store', err) := SubmitListen (store st) opts in
      match err with
      | Some e =>
          ({| store := store'; lastImported := lastImported st;
              calls := calls st ++ [opts]; sleeps := sleeps st |},
           Some (wrapErr e))
      | None =>
          ({| store := store';
              lastImported := <[key := Timestamp item]> (lastImported st);
              calls := calls st ++ [opts];
              sleeps := throttle (sleeps st) |},
           None)
      end.

(** [for _, item := range export { ... }] *)
Fixpoint importLoop (st : LoopState) (export : list SpotifyExportItem)
  : LoopState * option string :=
  match export with
  | [] => (st, None)
  | item :: rest =>
      match loopBody st item with
      | (st', Some e) => (st', Some e)
      | (st', None) => importLoop st' rest
      end
  end.

Definition ImportSpotifyFile (s : Store) (filename : string)
  (file : FileContents) : LoopState * option string :=
  match file with
  | OpenFails e => (initState s, Some (wrapErr e))
  | DecodeFails e => (initState s, Some (wrapErr e))
  | Decoded export =>
      match importLoop (initState s) export with
      | (st, Some e) => (st, Some e)
      | (st, None) => (st, finishImport filename (length export))
      end
  end.

End ImportLoop.

Arguments store {Store} _.
Arguments lastImported {Store} _.
Arguments calls {Store} _.
Arguments sleeps {Store} _.
Arguments initState {Store} _.

End Importer.

(** ** Package strings (the functions the image client uses) *)

Module Strings.

(** The double-quote character, for the query syntax [field:"value"]. *)
Definition dq : string := String (ascii_of_nat 34) EmptyString.

(** [strings.Contains(s, substr)] on byte strings. *)
Fixpoint Contains (s substr : string) : bool :=
  String.prefix substr s
  || match s with
     | EmptyString => false
     | String _ s' => Contains s' substr
     end.

(** [strings.Join(elems, sep)] *)
Fixpoint Join (elems : list string) (sep : string) : string :=
  match elems with
  | [] => EmptyString
  | [e] => e
  | e :: rest => e +:+ sep +:+ Join rest sep
  end.

End Strings.

(** ** Package queue *)

Module Queue.

(** Modelled from the spec: package queue is not among the sources. A
    queue is configured with a maximum number of in-flight tasks and a
    maximum queued depth; [Submit] hands a task to the queue and fails
    once the queue is shut down; [Shutdown] stops it. The model keeps
    the configuration, whether the queue is shut down, and how many
    tasks it has accepted. *)
Record RequestQueue := {
  maxConcurrent : Z;
  maxQueued     : Z;
  closed        : bool;
  accepted      : nat
}.

Definition NewRequestQueue (concurrent queued : Z) : RequestQueue :=
  {| maxConcurrent := concurrent; maxQueued := queued;
     closed := false; accepted := 0%nat |}.

Definition Shutdown (q : RequestQueue) : RequestQueue :=
  {| maxConcurrent := maxConcurrent q; maxQueued := maxQueued q;
     closed := true; accepted := accepted q |}.

(** [Submit]: [None] is the shutdown error. *)
Definition Submit (q : RequestQueue) : option RequestQueue :=
  if closed q then None
  else Some {| maxConcurrent := maxConcurrent q; maxQueued := maxQueued q;
               closed := false; accepted := S (accepted q) |}.

End Queue.

(** ** Package images: the Spotify client *)

Module Images.

Import Strings.

Inductive SearchType := SearchTypeArtist | SearchTypeAlbum.

Record Image := { URL : string }.

Module FullArtist.
Record t := { Name : string; Images : list Image }.
End FullArtist.

Module SimpleAlbum.
Record t := { Name : string; Images : list Image }.
End SimpleAlbum.

(** [spotify.SearchResult]: each page is a pointer that may be nil. *)
Record SearchResult := {
  Artists : option (list FullArtist.t);
  Albums  : option (list SimpleAlbum.t)
}.

(** The fields of [SpotifyClient] that hold data ([client] and
    [httpClient] are handles on the network). *)
Record SpotifyClient := {
  url          : string;
  userAgent    : string;
  requestQueue : Queue.RequestQueue;
  accessToken  : string;
  tokenExpiry  : GoTime.Time
}.

(** What the token endpoint answered. *)
Inductive TokenReply :=
| TransportError (err : string)
| BadStatus (code : Z) (body : string)
| BadBody (err : string)
| Granted (access_token : string) (expires_in : Z).

(** Requests that reach the network, with the Authorization header
    [authTransport.RoundTrip] left on them. *)
Inductive Event :=
| TokenRequest (authorization : string)
| SearchRequest (authorization : option string) (query : string) (ty : SearchType).

Definition isTokenRequest (e : Event) : bool :=
  match e with TokenRequest _ => true | _ => false end.

Definition isSearchRequest (e : Event) : bool :=
  match e with SearchRequest _ _ _ => true | _ => false end.

Definition queryOf (e : Event) : option string :=
  match e with SearchRequest _ q _ => Some q | _ => None end.

Inductive Result (A : Type) :=
| Ok (a : A)
| Err (e : string).
Arguments Ok {A} a.
Arguments Err {A} e.

(** int64 wrap-around. *)
Definition wrap64 (z : Z) : Z := (z + 2 ^ 63) mod 2 ^ 64 - 2 ^ 63.

Definition spotifyBaseUrl : string := "https://api.spotify.com/v1".

Section Client.

(** The world outside the process: Spotify's servers and the clock. *)
Variable Net : Type.
Variable Now : Net -> GoTime.Time.
Variable tokenEndpoint : Net -> string -> Net * TokenReply.
Variable Search :
  Net -> option string -> string -> SearchType -> Net * (SearchResult + string).
(** Packages romanizer, utils, cfg, encoding/base64 and the case
    functions of package strings ([%d] is printed with [pretty]). *)
Variable Romanize : string -> string.
Variable UniqueIgnoringCase : list string -> list string.
Variable ToLower : string -> string.
Variable EqualFold : string -> string -> bool.
Variable base64 : string -> string.
Variable SpotifyClientId SpotifyClientSecret UserAgent : string.

Record World := {
  client : SpotifyClient;
  net    : Net;
  trace  : list Event
}.

Definition M (A : Type) : Type := World -> Result A * World.

Definition ret {A} (a : A) : M A := fun w => (Ok a, w).

Definition bind {A B} (m : M A) (k : A -> M B) : M B :=
  fun w =>
    match m w with
    | (Ok a, w') => k a w'
    | (Err e, w') => (Err e, w')
    end.

(** [if err != nil { return ..., fmt.Errorf(prefix + "%w", err) }] *)
Definition wrap {A} (prefix : string) (m : M A) : M A :=
  fun w =>
    match m w with
    | (Ok a, w') => (Ok a, w')
    | (Err e, w') => (Err (prefix +:+ e), w')
    end.

(** [authTransport.RoundTrip]: a cached token replaces whatever
    Authorization header the request carried. *)
Definition roundTrip (c : SpotifyClient) (header : option string) : option string :=
  if String.eqb (accessToken c) "" then header
  else Some ("Bearer " +:+ accessToken c).

Definition setToken (c : SpotifyClient) (tok : string) (exp : GoTime.Time)
  : SpotifyClient :=
  {| url := url c; userAgent := userAgent c; requestQueue := requestQueue c;
     accessToken := tok; tokenExpiry := exp |}.

Definition authenticate : M unit :=
  fun w =>
    let clientID := SpotifyClientId in
    let clientSecret := SpotifyClientSecret in
    if String.eqb clientID "" || String.eqb clientSecret ""
    then (Err "Spotify client ID or secret not configured", w)
    else
      let auth := base64 (clientID +:+ ":" +:+ clientSecret) in
      let header :=
        default EmptyString (roundTrip (client w) (Some ("Basic " +:+ auth))) in
      let '(net', reply) := tokenEndpoint (net w) header in
      let w' := {| client := client w; net := net';
                   trace := trace w ++ [TokenRequest header] |} in
      match reply with
      | TransportError e =>
          (Err ("failed to authenticate with Spotify: " +:+ e), w')
      | BadStatus code body =>
          (Err ("Spotify auth failed with status: " +:+ pretty code
                +:+ ", body: " +:+ body), w')
      | BadBody e =>
          (Err ("failed to parse auth response: " +:+ e), w')
      | Granted tok expires_in =>
          let exp := GoTime.Add (Now net') (wrap64 (expires_in * GoTime.Second)) in
          (Ok tt, {| client := setToken (client w) tok exp; net := net';
                     trace := trace w' |})
      end.

(** The condition of [ensureToken]: the token is missing or the clock
    is past the expiry less five minutes. *)
Definition tokenStale (w : World) : bool :=
  String.eqb (accessToken (client w)) ""
  || GoTime.After (Now (net w))
       (GoTime.Add (tokenExpiry (client w)) (- 5 * GoTime.Minute)).

Definition ensureToken : M unit :=
  fun w => if tokenStale w then authenticate w else (Ok tt, w).

Definition searchEntity (query : string) (searchType : SearchType)
  : M SearchResult :=
  fun w =>
    match ensureToken w with
    | (Err e, w1) => (Err ("searchEntity: " +:+ e), w1)
    | (Ok _, w1) =>
        let header := roundTrip (client w1) None in
        let '(net', r) := Search (net w1) header query searchType in
        let w2 := {| client := client w1; net := net';
                     trace := trace w1 ++ [SearchRequest header query searchType] |} in
        match r with
        | inr e => (Err ("searchEntity: " +:+ e), w2)
        | inl results => (Ok results, w2)
        end
    end.

Definition NewSpotifyClient (n : Net) : World :=
  let ret0 := {| url := spotifyBaseUrl; userAgent := UserAgent;
                 requestQueue := Queue.NewRequestQueue 5 5;
                 accessToken := EmptyString;
                 tokenExpiry := GoTime.zeroTime |} in
  snd (authenticate {| client := ret0; net := n; trace := [] |}).

Definition Shutdown (w : World) : World :=
  let c := client w in
  {| client := {| url := url c; userAgent := userAgent c;
                  requestQueue := Queue.Shutdown (requestQueue c);
                  accessToken := accessToken c;
                  tokenExpiry := tokenExpiry c |};
     net := net w; trace := trace w |}.

(** *** The artist cascade *)

(** [strings.EqualFold(name, a) ||
     strings.Contains(strings.ToLower(name), strings.ToLower(a))] *)
Definition nameMatches (name a : string) : bool :=
  EqualFold name a || Contains (ToLower name) (ToLower a).

(** The test of the first loop, which also knows the romanized form. *)
Definition nameMatchesRomanized (name romanized a : string) : bool :=
  EqualFold name romanized || EqualFold name a
  || Contains (ToLower name) (ToLower a).

(** [for _, artist := range results.Artists.Artists]: the first image of
    the first artist that passes [test] and has an image. *)
Fixpoint artistLoop (test : string -> bool) (artists : list FullArtist.t)
  : option string :=
  match artists with
  | [] => None
  | artist :: rest =>
      if test (FullArtist.Name artist) then
        match FullArtist.Images artist with
        | img :: _ => Some (URL img)
        | [] => artistLoop test rest
        end
      else artistLoop test rest
  end.

(** [if results.Artists != nil && len(results.Artists.Artists) > 0] *)
Definition pickArtist (test : string -> bool) (results : SearchResult)
  : option string :=
  match Artists results with
  | Some artists =>
      if (0 <? length artists)%nat then artistLoop test artists else None
  | None => None
  end.

(** The two nested loops of the combined query: for each artist, for
    each alias. *)
Fixpoint aliasLoop (artist : FullArtist.t) (aliases : list string)
  : option string :=
  match aliases with
  | [] => None
  | a :: rest =>
      if nameMatches (FullArtist.Name artist) a then
        match FullArtist.Images artist with
        | img :: _ => Some (URL img)
        | [] => aliasLoop artist rest
        end
      else aliasLoop artist rest
  end.

Fixpoint combinedArtistLoop (artists : list FullArtist.t) (aliases : list string)
  : option string :=
  match artists with
  | [] => None
  | artist :: rest =>
      match aliasLoop artist aliases with
      | Some img => Some img
      | None => combinedArtistLoop rest aliases
      end
  end.

Definition pickCombined (aliases : list string) (results : SearchResult)
  : option string :=
  match Artists results with
  | Some artists =>
      if (0 <? length artists)%nat then combinedArtistLoop artists aliases
      else None
  | None => None
  end.

Definition quoted (field value : string) : string :=
  field +:+ ":" +:+ dq +:+ value +:+ dq.

Definition unquoted (field value : string) : string :=
  field +:+ ":" +:+ value.

Definition artistSearch (query : string) : M SearchResult :=
  wrap "GetArtistImages: " (searchEntity query SearchTypeArtist).

(** Each loop gives [Some img] when it returns an image and [None]
    when it falls through to the code after it. *)
Fixpoint romanizedLoop (aliasesUniq : list string) : M (option string) :=
  match aliasesUniq with
  | [] => ret None
  | a :: rest =>
      let romanized := Romanize a in
      if String.eqb romanized "" then romanizedLoop rest
      else
        bind (artistSearch (quoted "artist" romanized)) (fun results =>
          match pickArtist (fun n => nameMatchesRomanized n romanized a) results with
          | Some img => ret (Some img)
          | None => romanizedLoop rest
          end)
  end.

Fixpoint quotedLoop (aliasesUniq : list string) : M (option string) :=
  match aliasesUniq with
  | [] => ret None
  | a :: rest =>
      bind (artistSearch (quoted "artist" a)) (fun results =>
        match pickArtist (fun n => nameMatches n a) results with
        | Some img => ret (Some img)
        | None => quotedLoop rest
        end)
  end.

Fixpoint unquotedLoop (aliasesUniq : list string) : M (option string) :=
  match aliasesUniq with
  | [] => ret None
  | a :: rest =>
      bind (artistSearch (unquoted "artist" a)) (fun results =>
        match pickArtist (fun n => nameMatches n a) results with
        | Some img => ret (Some img)
        | None => unquotedLoop rest
        end)
  end.

Definition combinedQuery (aliasesUniq : list string) : string :=
  Join (map (quoted "artist") aliasesUniq) " OR ".

Definition combinedStep (aliasesUniq : list string) : M (option string) :=
  if (1 <? length aliasesUniq)%nat then
    bind (artistSearch (combinedQuery aliasesUniq)) (fun results =>
      ret (pickCombined aliasesUniq results))
  else ret None.

(** [a] then, if it fell through, [b]. *)
Definition orElse (a b : M (option string)) : M (option string) :=
  bind a (fun r => match r with Some img => ret (Some img) | None => b end).

Definition notFound (msg : string) (m : M (option string)) : M string :=
  bind m (fun r =>
    match r with
    | Some img => ret img
    | None => fun w => (Err msg, w)
    end).

Definition GetArtistImages (aliases : list string) : M string :=
  let aliasesUniq := UniqueIgnoringCase aliases in
  notFound "GetArtistImages: artist image not found"
    (orElse (romanizedLoop aliasesUniq)
       (orElse (quotedLoop aliasesUniq)
          (orElse (unquotedLoop aliasesUniq)
             (combinedStep aliasesUniq)))).

(** *** The album cascade *)

Fixpoint albumLoop (album : string) (albums : list SimpleAlbum.t)
  : option string :=
  match albums with
  | [] => None
  | alb :: rest =>
      if nameMatches (SimpleAlbum.Name alb) album then
        match SimpleAlbum.Images alb with
        | img :: _ => Some (URL img)
        | [] => albumLoop album rest
        end
      else albumLoop album rest
  end.

(** [if results.Albums != nil && len(results.Albums.Albums) > 0] *)
Definition pickAlbum (album : string) (results : SearchResult) : option string :=
  match Albums results with
  | Some albums =>
      if (0 <? length albums)%nat then albumLoop album albums else None
  | None => None
  end.

Definition albumSearch (query : string) : M SearchResult :=
  wrap "GetAlbumImages: " (searchEntity query SearchTypeAlbum).

(** [for _, query := range queries] *)
Fixpoint queryLoop (album : string) (queries : list string) : M (option string) :=
  match queries with
  | [] => ret None
  | query :: rest =>
      bind (albumSearch query) (fun results =>
        match pickAlbum album results with
        | Some img => ret (Some img)
        | None => queryLoop album rest
        end)
  end.

Definition when (b : bool) (qs : list string) : list string :=
  if b then qs else [].

(** The queries built for one artist, in the order of the appends. *)
Definition artistAlbumQueries (artist album : string) : list string :=
  let romanizedArtist := Romanize artist in
  let romanizedAlbum := Romanize album in
  let hasAlbum := negb (String.eqb romanizedAlbum "") in
  let hasArtist := negb (String.eqb romanizedArtist "") in
  when hasAlbum
    [quoted "artist" artist +:+ " " +:+ quoted "album" romanizedAlbum]
  ++ when hasArtist
       ([quoted "artist" romanizedArtist +:+ " " +:+ quoted "album" album]
        ++ when hasAlbum
             [quoted "artist" romanizedArtist +:+ " "
              +:+ quoted "album" romanizedAlbum])
  ++ [quoted "artist" artist +:+ " " +:+ quoted "album" album]
  ++ [unquoted "artist" artist +:+ " " +:+ quoted "album" album]
  ++ when hasAlbum
       [unquoted "artist" artist +:+ " " +:+ quoted "album" romanizedAlbum]
  ++ when hasArtist
       ([unquoted "artist" romanizedArtist +:+ " " +:+ quoted "album" album]
        ++ when hasAlbum
             [unquoted "artist" romanizedArtist +:+ " "
              +:+ quoted "album" romanizedAlbum]).

Fixpoint perArtistLoop (album : string) (artistsUniq : list string)
  : M (option string) :=
  match artistsUniq with
  | [] => ret None
  | artist :: rest =>
      orElse (queryLoop album (artistAlbumQueries artist album))
             (perArtistLoop album rest)
  end.

Definition combinedAlbumQueries (artistsUniq : list string) (album : string)
  : list string :=
  let combinedArtistQuery := Join (map (quoted "artist") artistsUniq) " OR " in
  let romanizedAlbum := Romanize album in
  ["(" +:+ combinedArtistQuery +:+ ") " +:+ quoted "album" album]
  ++ when (negb (String.eqb romanizedAlbum ""))
       ["(" +:+ combinedArtistQuery +:+ ") " +:+ quoted "album" romanizedAlbum].

Definition combinedAlbumStep (artistsUniq : list string) (album : string)
  : M (option string) :=
  if (1 <? length artistsUniq)%nat
  then queryLoop album (combinedAlbumQueries artistsUniq album)
  else ret None.

Definition albumOnlyQueries (album : string) : list string :=
  let romanizedAlbum := Romanize album in
  when (negb (String.eqb romanizedAlbum ""))
    [quoted "album" romanizedAlbum; unquoted "album" romanizedAlbum]
  ++ [quoted "album" album; unquoted "album" album].

Definition GetAlbumImages (artists : list string) (album : string) : M string :=
  let artistsUniq := UniqueIgnoringCase artists in
  notFound "GetAlbumImages: album image not found"
    (orElse (perArtistLoop album artistsUniq)
       (orElse (combinedAlbumStep artistsUniq album)
          (queryLoop album (albumOnlyQueries album)))).

(** *** The cascade as an ordered list of strategies

    The specification describes a cascade as an ordered list of query
    strategies run by one executor that stops at the first match. A
    strategy is a query with the rule that picks an image out of its
    results; [firstMatch] is that executor, and [artistPlan] the list
    for the artist lookup. *)

Definition Strategy : Type := string * (SearchResult -> option string).

Fixpoint firstMatch (plan : list Strategy) : M (option string) :=
  match plan with
  | [] => ret None
  | (query, pick) :: rest =>
      bind (artistSearch query) (fun results =>
        match pick results with
        | Some img => ret (Some img)
        | None => firstMatch rest
        end)
  end.

Definition romanizedStrategies (aliasesUniq : list string) : list Strategy :=
  flat_map (fun a =>
    let romanized := Romanize a in
    if String.eqb romanized "" then []
    else [(quoted "artist" romanized,
           pickArtist (fun n => nameMatchesRomanized n romanized a))])
    aliasesUniq.

Definition quotedStrategies (aliasesUniq : list string) : list Strategy :=
  map (fun a => (quoted "artist" a, pickArtist (fun n => nameMatches n a)))
      aliasesUniq.

Definition unquotedStrategies (aliasesUniq : list string) : list Strategy :=
  map (fun a => (unquoted "artist" a, pickArtist (fun n => nameMatches n a)))
      aliasesUniq.

Definition combinedStrategies (aliasesUniq : list string) : list Strategy :=
  if (1 <? length aliasesUniq)%nat
  then [(combinedQuery aliasesUniq, pickCombined aliasesUniq)]
  else [].

Definition artistPlan (aliasesUniq : list string) : list Strategy :=
  romanizedStrategies aliasesUniq
  ++ quotedStrategies aliasesUniq
  ++ unquotedStrategies aliasesUniq
  ++ combinedStrategies aliasesUniq.

(** The queries among the events. *)
Definition queries (t : list Event) : list string := omap queryOf t.

Definition tokenRequests (t : list Event) : nat :=
  length (List.filter isTokenRequest t).

Definition searchRequests (t : list Event) : nat :=
  length (List.filter isSearchRequest t).

(** *** Concurrent callers of [ensureToken]

    The client is shared by all callers and [ensureToken] takes no
    lock, so the steps of several callers interleave. A caller reads
    the token and the expiry (the check), then, inside [authenticate],
    sends the token request, then stores the token it was granted.
    Each of these three steps is taken as atomic. *)

Inductive Pc :=
| AtCheck
| AtRequest
| AtStore (access_token : string) (expires_in : Z)
| Finished (r : Result unit).

Definition threadStep (pc : Pc) (w : World) : Pc * World :=
  match pc with
  | AtCheck =>
      if tokenStale w then (AtRequest, w) else (Finished (Ok tt), w)
  | AtRequest =>
      if String.eqb SpotifyClientId "" || String.eqb SpotifyClientSecret ""
      then (Finished (Err "Spotify client ID or secret not configured"), w)
      else
        let auth := base64 (SpotifyClientId +:+ ":" +:+ SpotifyClientSecret) in
        let header :=
          default EmptyString (roundTrip (client w) (Some ("Basic " +:+ auth))) in
        let '(net', reply) := tokenEndpoint (net w) header in
        let w' := {| client := client w; net := net';
                     trace := trace w ++ [TokenRequest header] |} in
        match reply with
        | TransportError e =>
            (Finished (Err ("failed to authenticate with Spotify: " +:+ e)), w')
        | BadStatus code body =>
            (Finished (Err ("Spotify auth failed with status: " +:+ pretty code
                            +:+ ", body: " +:+ body)), w')
        | BadBody e =>
            (Finished (Err ("failed to parse auth response: " +:+ e)), w')
        | Granted tok expires_in => (AtStore tok expires_in, w')
        end
  | AtStore tok expires_in =>
      let exp := GoTime.Add (Now (net w)) (wrap64 (expires_in * GoTime.Second)) in
      (Finished (Ok tt),
       {| client := setToken (client w) tok exp; net := net w; trace := trace w |})
  | Finished r => (Finished r, w)
  end.

Record Config := {
  threads : list Pc;
  shared  : World
}.

(** Thread [i] takes its next step (nothing happens when there is no
    such thread). *)
Definition schedStep (cfg : Config) (i : nat) : Config :=
  match threads cfg !! i with
  | Some pc =>
      let '(pc', w') := threadStep pc (shared cfg) in
      {| threads := <[i := pc']> (threads cfg); shared := w' |}
  | None => cfg
  end.

Definition run (sched : list nat) (cfg : Config) : Config :=
  fold_left schedStep sched cfg.

Definition isFinished (pc : Pc) : bool :=
  match pc with Finished _ => true | _ => false end.

Definition allFinished (cfg : Config) : bool := forallb isFinished (threads cfg).

(** [n] callers that are each about to call [ensureToken]. *)
Definition callers (n : nat) (w : World) : Config :=
  {| threads := replicate n AtCheck; shared := w |}.

(** *** Notions the properties are stated with *)

(** Whether the client credentials are configured. *)
Definition configured : bool :=
  negb (String.eqb SpotifyClientId "" || String.eqb SpotifyClientSecret "").

(** The Authorization header the token request goes out with. *)
Definition tokenHeader (w : World) : string :=
  default EmptyString
    (roundTrip (client w)
       (Some ("Basic " +:+ base64 (SpotifyClientId +:+ ":" +:+ SpotifyClientSecret)))).

(** A step that leaves the request queue of the client as it was. *)
Definition keepsQueue {A} (m : M A) : Prop :=
  forall w, requestQueue (client (snd (m w))) = requestQueue (client w).

(** The search request [searchEntity] sends once [ensureToken] has let it
    through. *)
Definition searchSent (query : string) (ty : SearchType) (w : World) : list Event :=
  match ensureToken w with
  | (Ok _, w1) => [SearchRequest (roundTrip (client w1) None) query ty]
  | (Err _, _) => []
  end.

(** An entity is taken when its name passes the test of the loop and it
    has an image. *)
Definition acceptedBy (test : string -> bool) (artist : FullArtist.t) : bool :=
  test (FullArtist.Name artist)
  && match FullArtist.Images artist with [] => false | _ :: _ => true end.

Definition firstImage (artist : FullArtist.t) : option string :=
  match FullArtist.Images artist with
  | img :: _ => Some (URL img)
  | [] => None
  end.

(** A caller that has sent its token request. *)
Definition requested (pc : Pc) : bool :=
  match pc with
  | AtStore _ _ | Finished _ => true
  | AtCheck | AtRequest => false
  end.

Definition countRequested (l : list Pc) : nat := length (List.filter requested l).

(** Along a schedule, every caller that makes its check finds the token
    stale. *)
Fixpoint checksFindStale (sched : list nat) (cfg : Config) : bool :=
  match sched with
  | [] => true
  | i :: rest =>
      match threads cfg !! i with
      | Some AtCheck => tokenStale (shared cfg)
      | _ => true
      end
      && checksFindStale rest (schedStep cfg i)
  end.

End Client.

Arguments client {Net} _.
Arguments net {Net} _.
Arguments trace {Net} _.
Arguments threads {Net} _.
Arguments shared {Net} _.

End Images.

(** ** Concrete collaborators

    Instances of the parameters above, on which the definitions can be
    run. *)

Module Concrete.

Import Importer.

(** *** For the importer *)

(** A store that is the list of the listens submitted so far; a
    submission fails (a storage failure) for the track title "Broken". *)
Definition Store : Type := list SubmitListenOpts.

Definition SubmitListen (s : Store) (opts : SubmitListenOpts)
  : Store * option string :=
  if String.eqb (TrackTitle opts) "Broken"
  then (s, Some "insert listen: connection refused")
  else (s ++ [opts], None).

Definition anyTime (t : GoTime.Time) : bool := true.

Definition finishOk (filename : string) (n : nat) : option string := None.

(** [ImportSpotifyFile] with images not fetched and no throttling. *)
Definition importFile (export : list SpotifyExportItem)
  : LoopState Store * option string :=
  ImportSpotifyFile Store SubmitListen anyTime finishOk false 0
    [] "export.json" (Decoded export).

(** 2023-11-14T22:13:20Z *)
Definition T0 : GoTime.Time := 1700000000 * GoTime.Second.

Definition play (artist track album : string) (ts : GoTime.Time) (ms : Z)
  : SpotifyExportItem :=
  {| Timestamp := ts; TrackName := track; ArtistName := artist;
     AlbumName := album; ReasonEnd := "trackdone"; MsPlayed := ms |}.

(** *** For the image client *)

Import Images.

(** Lower-casing of the ASCII letters; other bytes are left as they are,
    which is what Go's [strings.ToLower] does on text without cased
    letters outside ASCII. *)
Definition lowerAscii (c : ascii) : ascii :=
  let n := nat_of_ascii c in
  if ((65 <=? n) && (n <=? 90))%nat then ascii_of_nat (n + 32) else c.

Fixpoint ToLower (s : string) : string :=
  match s with
  | EmptyString => EmptyString
  | String c s' => String (lowerAscii c) (ToLower s')
  end.

Definition EqualFold (s t : string) : bool := String.eqb (ToLower s) (ToLower t).

(** The first occurrence of each alias, compared without case. *)
Fixpoint UniqueIgnoringCase (l : list string) : list string :=
  match l with
  | [] => []
  | a :: rest =>
      a :: List.filter (fun b => negb (EqualFold a b)) (UniqueIgnoringCase rest)
  end.

(** A world whose state is the clock: every request takes one second,
    the token endpoint grants the token "tok" for an hour, and a search
    is answered out of a fixed catalogue. *)
Definition Net : Type := GoTime.Time.

Definition Now (n : Net) : GoTime.Time := n.

Definition tokenEndpoint (n : Net) (authorization : string) : Net * TokenReply :=
  (n + GoTime.Second, Granted "tok" 3600).

Definition searchIn (catalogue : string -> SearchType -> SearchResult)
  (n : Net) (authorization : option string) (query : string) (ty : SearchType)
  : Net * (SearchResult + string) :=
  (n + GoTime.Second, inl (catalogue query ty)).

Definition noResults (query : string) (ty : SearchType) : SearchResult :=
  {| Artists := Some []; Albums := Some [] |}.

(** A romanizer that knows one name and gives the empty string (nothing
    to romanize) for every other. *)
Definition kanji : string := "米津玄師".
Definition Romanize (s : string) : string :=
  if String.eqb s kanji then "Kenshi Yonezu" else EmptyString.

(** A stand-in for the base64 encoding (what the header holds plays no
    role below). *)
Definition base64 (s : string) : string := s.

(** The client as [NewSpotifyClient] leaves it at [T0]. *)
Definition newClient : World Net :=
  NewSpotifyClient Net Now tokenEndpoint base64 "id" "secret" "koito" T0.

(** A client whose token is missing: the authentication at start-up
    failed. *)
Definition unauthenticated : World Net :=
  {| client := {| url := spotifyBaseUrl; userAgent := "koito";
                  requestQueue := Queue.NewRequestQueue 5 5;
                  accessToken := EmptyString;
                  tokenExpiry := GoTime.zeroTime |};
     net := T0; trace := [] |}.

Definition getArtistImages (catalogue : string -> SearchType -> SearchResult)
  : list string -> M Net string :=
  GetArtistImages Net Now tokenEndpoint (searchIn catalogue) Romanize
    UniqueIgnoringCase ToLower EqualFold base64 "id" "secret".

Definition portrait (name : string) : list Image :=
  [{| URL := "https://i.scdn.co/image/" +:+ name |}].

(** A catalogue in which the romanized exact phrase finds the artist under
    the romanized name, and the unquoted original finds the artist under the
    original name, each with its own image. *)
Definition yonezu (query : string) (ty : SearchType) : SearchResult :=
  if String.eqb query (quoted "artist" "Kenshi Yonezu") then
    {| Artists := Some [{| FullArtist.Name := "Kenshi Yonezu";
                           FullArtist.Images := portrait "romanized" |}];
       Albums := None |}
  else if String.eqb query (unquoted "artist" kanji) then
    {| Artists := Some [{| FullArtist.Name := kanji;
                           FullArtist.Images := portrait "original" |}];
       Albums := None |}
  else noResults query ty.

(** A catalogue in which only the unquoted query on the original name
    finds the artist. *)
Definition looseOnly (query : string) (ty : SearchType) : SearchResult :=
  if String.eqb query (unquoted "artist" kanji) then
    {| Artists := Some [{| FullArtist.Name := kanji;
                           FullArtist.Images := portrait "original" |}];
       Albums := None |}
  else noResults query ty.

Definition interleave : list nat -> Config Net -> Config Net :=
  run Net Now tokenEndpoint base64 "id" "secret".

End Concrete.

(** * Properties of the importer *)

Section ImporterProperties.

Import Importer.

Variable Store : Type.
Variable SubmitListen : Store -> SubmitListenOpts -> Store * option string.
Variable inImportTimeWindow : GoTime.Time -> bool.
Variable finishImport : string -> nat -> option string.
Variable FetchImagesDuringImport : bool.
Variable ThrottleImportMs : Z.

Local Abbreviation mkOpts := (mkOpts FetchImagesDuringImport).
Local Abbreviation throttle := (throttle ThrottleImportMs).
Local Abbreviation survives := (survives Store inImportTimeWindow).
Local Abbreviation loopBody :=
  (loopBody Store SubmitListen inImportTimeWindow FetchImagesDuringImport
     ThrottleImportMs).
Local Abbreviation importLoop :=
  (importLoop Store SubmitListen inImportTimeWindow FetchImagesDuringImport
     ThrottleImportMs).
Local Abbreviation ImportSpotifyFile :=
  (ImportSpotifyFile Store SubmitListen inImportTimeWindow finishImport
     FetchImagesDuringImport ThrottleImportMs).

(** Saturation does not show in the comparison with five seconds. *)
Lemma Sub_lt_5s (t u : GoTime.Time) :
  (GoTime.Sub t u <? 5 * GoTime.Second) = (t - u <? 5 * GoTime.Second).
Proof.
  unfold GoTime.Sub, GoTime.minDuration, GoTime.maxDuration, GoTime.Second.
  cbv zeta.
  destruct (Z.ltb_spec (t - u) (- 2 ^ 63)); [|destruct (Z.ltb_spec (2 ^ 63 - 1) (t - u))];
    destruct (Z.ltb_spec (t - u) (5 * 1000000000)); try reflexivity;
    repeat match goal with |- context [Z.ltb ?a ?b] => destruct (Z.ltb_spec a b) end;
    try reflexivity; lia.
Qed.

(** A record is a duplicate when its key is remembered and its time is
    less than five seconds after the remembered one: the difference is
    signed, so any earlier time counts. *)
Lemma isDuplicate_spec (m : gmap string Z) (item : SpotifyExportItem) :
  isDuplicate m item = true <->
  exists prevTime, m !! dedupKey item = Some prevTime
                   /\ Timestamp item - prevTime < 5 * GoTime.Second.
Proof.
  unfold isDuplicate. destruct (m !! dedupKey item) as [prev|].
  - rewrite Sub_lt_5s, Z.ltb_lt. split.
    + intros H. exists prev. split; [reflexivity | exact H].
    + intros (p & Hp & H). injection Hp as <-. exact H.
  - split; [discriminate | intros (p & Hp & _); discriminate].
Qed.

Lemma survives_true (st : LoopState Store) (item : SpotifyExportItem) :
  survives st item = true ->
  String.eqb (ReasonEnd item) "trackdone" = true
  /\ inImportTimeWindow (Timestamp item) = true
  /\ (String.eqb (TrackName item) "" || String.eqb (ArtistName item) "") = false
  /\ isDuplicate (lastImported st) item = false.
Proof.
  unfold Importer.survives. intros H.
  apply andb_prop in H as [H H4]. apply andb_prop in H as [H H3].
  apply andb_prop in H as [H1 H2].
  apply negb_true_iff in H3, H4. auto.
Qed.

(** A record that does not pass the filters leaves everything as it was. *)
Lemma loopBody_filtered (st : LoopState Store) (item : SpotifyExportItem) :
  survives st item = false -> loopBody st item = (st, None).
Proof.
  unfold Importer.survives, Importer.loopBody. intros H.
  destruct (String.eqb (ReasonEnd item) "trackdone"); cbn in *; [|reflexivity].
  destruct (inImportTimeWindow (Timestamp item)); cbn in *; [|reflexivity].
  destruct (String.eqb (TrackName item) "" || String.eqb (ArtistName item) "");
    cbn in *; [reflexivity|].
  destruct (isDuplicate (lastImported st) item); cbn in *;
    [reflexivity | discriminate].
Qed.

(** A record that passes them is submitted, and what follows depends on
    the outcome of the submission. *)
Lemma loopBody_submitted (st : LoopState Store) (item : SpotifyExportItem) :
  survives st item = true ->
  loopBody st item =
    match SubmitListen (store st) (mkOpts item) with
    | (store', Some e) =>
        ({| store := store'; lastImported := lastImported st;
            calls := calls st ++ [mkOpts item];
            sleeps := sleeps st |},
         Some (wrapErr e))
    | (store', None) =>
        ({| store := store';
            lastImported :=
              <[dedupKey item := Timestamp item]> (lastImported st);
            calls := calls st ++ [mkOpts item];
            sleeps := throttle (sleeps st) |},
         None)
    end.
Proof.
  intros H. apply survives_true in H as (H1 & H2 & H3 & H4).
  unfold Importer.loopBody. rewrite H1, H2, H3, H4. cbn.
  destruct (SubmitListen (store st) (mkOpts item)) as [s' [e|]]; reflexivity.
Qed.

Lemma importLoop_app (st : LoopState Store) (pre post : list SpotifyExportItem) :
  importLoop st (pre ++ post) =
    match importLoop st pre with
    | (st', Some e) => (st', Some e)
    | (st', None) => importLoop st' post
    end.
Proof.
  revert st. induction pre as [|item pre IH]; intros st; cbn.
  - reflexivity.
  - destruct (loopBody st item) as [st' [e|]]; [reflexivity | apply IH].
Qed.

(** Every call the loop adds submits the options built from a record of
    the file. *)
Lemma loopBody_calls (st : LoopState Store) (item : SpotifyExportItem) :
  calls (fst (loopBody st item)) = calls st
  \/ calls (fst (loopBody st item)) = calls st ++ [mkOpts item].
Proof.
  destruct (survives st item) eqn:H.
  - right. rewrite (loopBody_submitted st item H).
    destruct (SubmitListen (store st) (mkOpts item)) as [s' [e|]]; reflexivity.
  - left. rewrite (loopBody_filtered st item H). reflexivity.
Qed.

Lemma importLoop_calls (export : list SpotifyExportItem) (st : LoopState Store) :
  exists submitted,
    calls (fst (importLoop st export)) = calls st ++ map mkOpts submitted
    /\ incl submitted export.
Proof.
  revert st. induction export as [|item rest IH]; intros st; cbn.
  - exists []. split; [symmetry; apply app_nil_r | apply incl_nil_l].
  - pose proof (loopBody_calls st item) as Hc.
    destruct (loopBody st item) as [st' [e|]] eqn:Hb; cbn in Hc |- *.
    + destruct Hc as [-> | ->].
      * exists []. split; [symmetry; apply app_nil_r | apply incl_nil_l].
      * exists [item]. split; [reflexivity |].
        intros x [<- | []]. left. reflexivity.
    + destruct (IH st') as (sub & Heq & Hin). rewrite Heq.
      destruct Hc as [-> | ->].
      * exists sub. split; [reflexivity | apply incl_tl, Hin].
      * exists (item :: sub). split; [by rewrite <- app_assoc |].
        apply incl_cons; [left; reflexivity | apply incl_tl, Hin].
Qed.

(** C8: a record whose track name or artist name is empty is dropped by
    the loop body before anything is resolved: the state is returned as it
    was (no [SubmitListen] call, the store and the duplicate map
    untouched), no error is returned, and the loop goes on with the
    records after it. *)
Theorem empty_name_record_skipped
  (st : LoopState Store) (item : SpotifyExportItem) (rest : list SpotifyExportItem) :
  TrackName item = EmptyString \/ ArtistName item = EmptyString ->
  loopBody st item = (st, None)
  /\ importLoop st (item :: rest) = importLoop st rest.
Proof.
  intros H.
  assert (Hb : loopBody st item = (st, None)).
  { apply loopBody_filtered. unfold Importer.survives.
    destruct H as [-> | ->]; cbn;
      rewrite ?orb_true_r, ?andb_false_r; reflexivity. }
  split; [exact Hb |]. cbn. rewrite Hb. reflexivity.
Qed.

(** C9: a record that passes every filter is handed to [SubmitListen]
    exactly once, with a duration that is the milliseconds played divided
    by 1000 and truncated toward zero (staying in the int32 range), the
    client label "spotify", and the skip flag set exactly when images are
    not fetched during import. *)
Theorem surviving_record_submission
  (st : LoopState Store) (item : SpotifyExportItem) :
  survives st item = true ->
  let opts := mkOpts item in
  calls (fst (loopBody st item)) = calls st ++ [opts]
  /\ store (fst (loopBody st item)) = fst (SubmitListen (store st) opts)
  /\ Duration opts = Z.quot (MsPlayed item) 1000
  /\ Z.abs (MsPlayed item) - 1000 < 1000 * Z.abs (Duration opts) <= Z.abs (MsPlayed item)
  /\ (int32_range (MsPlayed item) -> int32_range (Duration opts))
  /\ Client opts = "spotify"
  /\ (SkipCacheImage opts = true <-> FetchImagesDuringImport = false).
Proof.
  intros H opts. rewrite (loopBody_submitted st item H). fold opts.
  repeat split.
  - destruct (SubmitListen (store st) opts) as [s' [e|]]; reflexivity.
  - destruct (SubmitListen (store st) opts) as [s' [e|]]; reflexivity.
  - cbn. Z.to_euclidean_division_equations. lia.
  - cbn. Z.to_euclidean_division_equations. lia.
  - cbn. unfold int32_range in *. Z.to_euclidean_division_equations. lia.
  - cbn. unfold int32_range in *. Z.to_euclidean_division_equations. lia.
  - cbn. destruct FetchImagesDuringImport; [discriminate | reflexivity].
  - cbn. intros ->. reflexivity.
Qed.

(** C3, as the code has it: when [SubmitListen] fails for a record, the
    import returns at once with that error wrapped as
    "ImportSpotifyFile: ..."; the records after it play no part in the
    result, the duplicate map is the one from before the record, and
    [finishImport] is not reached. The error is all that is returned. *)
Theorem submit_error_aborts_import
  (s : Store) (filename : string) (pre rest : list SpotifyExportItem)
  (item : SpotifyExportItem) (st : LoopState Store) (s' : Store) (e : string) :
  importLoop (initState s) pre = (st, None) ->
  survives st item = true ->
  SubmitListen (store st) (mkOpts item) = (s', Some e) ->
  ImportSpotifyFile s filename (Decoded (pre ++ item :: rest)) =
    ({| store := s'; lastImported := lastImported st;
        calls := calls st ++ [mkOpts item]; sleeps := sleeps st |},
     Some (wrapErr e)).
Proof.
  intros Hpre Hs He. unfold Importer.ImportSpotifyFile.
  rewrite importLoop_app, Hpre. cbn.
  rewrite (loopBody_submitted st item Hs), He. reflexivity.
Qed.

End ImporterProperties.

(** ** The importer on concrete files *)

Section ImporterRuns.

Import Importer Concrete.

Local Abbreviation loopBody := (loopBody Store SubmitListen anyTime false 0).
Local Abbreviation importLoop := (importLoop Store SubmitListen anyTime false 0).

(** The two examples of the specification: the same triple three seconds
    later is dropped, six seconds later it is kept. *)
Example same_triple_3s_later :
  store (fst (importFile [play "X" "Y" "Z" T0 180000;
                          play "X" "Y" "Z" (T0 + 3 * GoTime.Second) 180000]))
  = [mkOpts false (play "X" "Y" "Z" T0 180000)].
Proof. vm_compute. reflexivity. Qed.

Example same_triple_6s_later :
  store (fst (importFile [play "X" "Y" "Z" T0 180000;
                          play "X" "Y" "Z" (T0 + 6 * GoTime.Second) 180000]))
  = [mkOpts false (play "X" "Y" "Z" T0 180000);
     mkOpts false (play "X" "Y" "Z" (T0 + 6 * GoTime.Second) 180000)].
Proof. vm_compute. reflexivity. Qed.

(** C2, where the code parts from it: a record of a remembered triple
    whose time is a full hour before the remembered one is dropped as a
    duplicate within five seconds. The file holds two plays of the same
    track an hour apart, the later one first; one listen is submitted and
    the import ends without error. *)
Theorem earlier_record_dropped_as_duplicate :
  let a := play "X" "Y" "Z" T0 180000 in
  let b := play "X" "Y" "Z" (T0 - 3600 * GoTime.Second) 180000 in
  Z.abs (Timestamp b - Timestamp a) = 3600 * GoTime.Second
  /\ isDuplicate (lastImported (fst (importFile [a]))) b = true
  /\ calls (fst (importFile [a; b])) = [mkOpts false a]
  /\ store (fst (importFile [a; b])) = [mkOpts false a]
  /\ snd (importFile [a; b]) = None.
Proof. vm_compute. repeat split; reflexivity. Qed.

(** C3, as stated, fails: the value [ImportSpotifyFile] returns is the
    error alone, and no count can be read off it. Two files that fail
    after a different number of stored listens return the same error. *)
Lemma returned_error_carries_no_count :
  ~ exists countOf : option string -> nat,
      forall export : list SpotifyExportItem,
        is_Some (snd (importFile export)) ->
        countOf (snd (importFile export))
        = length (store (fst (importFile export))).
Proof.
  intros [countOf H].
  pose proof (H [play "X" "Broken" "Z" T0 180000]) as H1.
  pose proof (H [play "X" "Y" "Z" T0 180000;
                 play "X" "Broken" "Z" (T0 + 200 * GoTime.Second) 180000]) as H2.
  vm_compute in H1, H2.
  assert (Hs : forall m : string, is_Some (Some m)) by (intros m; exists m; reflexivity).
  specialize (H1 (Hs _)). specialize (H2 (Hs _)).
  rewrite H1 in H2. discriminate.
Qed.

Lemma submit_error_aborts_import_witness :
  let pre := [play "X" "Y" "Z" T0 180000] in
  let item := play "X" "Broken" "Z" (T0 + 200 * GoTime.Second) 180000 in
  let rest := [play "X" "W" "Z" (T0 + 400 * GoTime.Second) 180000] in
  let st := fst (importLoop (initState []) pre) in
  ImportSpotifyFile Store SubmitListen anyTime finishOk false 0
    [] "export.json" (Decoded (pre ++ item :: rest)) =
    ({| store := store st; lastImported := lastImported st;
        calls := calls st ++ [mkOpts false item]; sleeps := sleeps st |},
     Some (wrapErr "insert listen: connection refused")).
Proof.
  exact (submit_error_aborts_import Store SubmitListen anyTime finishOk false 0
           [] "export.json"
           [play "X" "Y" "Z" T0 180000]
           [play "X" "W" "Z" (T0 + 400 * GoTime.Second) 180000]
           (play "X" "Broken" "Z" (T0 + 200 * GoTime.Second) 180000)
           (fst (importLoop (initState []) [play "X" "Y" "Z" T0 180000]))
           [mkOpts false (play "X" "Y" "Z" T0 180000)]
           "insert listen: connection refused"
           eq_refl eq_refl eq_refl).
Defined.

Lemma empty_name_record_skipped_witness :
  let item := play "X" "" "Z" T0 180000 in
  let rest := [play "X" "Y" "Z" (T0 + 200 * GoTime.Second) 180000] in
  loopBody (initState []) item = (initState [], None)
  /\ importLoop (initState []) (item :: rest) = importLoop (initState []) rest.
Proof.
  exact (empty_name_record_skipped Store SubmitListen anyTime false 0
           (initState []) (play "X" "" "Z" T0 180000)
           [play "X" "Y" "Z" (T0 + 200 * GoTime.Second) 180000]
           (or_introl eq_refl)).
Defined.

Lemma surviving_record_submission_witness :
  let st := initState ([] : Store) in
  let item := play "X" "Y" "Z" T0 (-180999) in
  let opts := mkOpts false item in
  calls (fst (loopBody st item)) = calls st ++ [opts]
  /\ store (fst (loopBody st item)) = fst (SubmitListen (store st) opts)
  /\ Duration opts = Z.quot (MsPlayed item) 1000
  /\ Z.abs (MsPlayed item) - 1000 < 1000 * Z.abs (Duration opts) <= Z.abs (MsPlayed item)
  /\ (int32_range (MsPlayed item) -> int32_range (Duration opts))
  /\ Client opts = "spotify"
  /\ (SkipCacheImage opts = true <-> false = false).
Proof.
  exact (surviving_record_submission Store SubmitListen anyTime false 0
           (initState []) (play "X" "Y" "Z" T0 (-180999)) eq_refl).
Defined.

End ImporterRuns.

(** * Properties of the Spotify client *)

Section ClientProperties.

Import Strings Images.

Variable Net : Type.
Variable Now : Net -> GoTime.Time.
Variable tokenEndpoint : Net -> string -> Net * TokenReply.
Variable Search :
  Net -> option string -> string -> SearchType -> Net * (SearchResult + string).
Variable Romanize : string -> string.
Variable UniqueIgnoringCase : list string -> list string.
Variable ToLower : string -> string.
Variable EqualFold : string -> string -> bool.
Variable base64 : string -> string.
Variable SpotifyClientId SpotifyClientSecret UserAgent : string.

Local Abbreviation M := (M Net).
Local Abbreviation World := (World Net).
Local Abbreviation authenticate :=
  (authenticate Net Now tokenEndpoint base64 SpotifyClientId SpotifyClientSecret).
Local Abbreviation tokenStale := (tokenStale Net Now).
Local Abbreviation ensureToken :=
  (ensureToken Net Now tokenEndpoint base64 SpotifyClientId SpotifyClientSecret).
Local Abbreviation searchEntity :=
  (searchEntity Net Now tokenEndpoint Search base64 SpotifyClientId
     SpotifyClientSecret).
Local Abbreviation artistSearch :=
  (artistSearch Net Now tokenEndpoint Search base64 SpotifyClientId
     SpotifyClientSecret).
Local Abbreviation albumSearch :=
  (albumSearch Net Now tokenEndpoint Search base64 SpotifyClientId
     SpotifyClientSecret).
Local Abbreviation nameMatches := (nameMatches ToLower EqualFold).
Local Abbreviation nameMatchesRomanized := (nameMatchesRomanized ToLower EqualFold).
Local Abbreviation pickCombined := (pickCombined ToLower EqualFold).
Local Abbreviation romanizedLoop :=
  (romanizedLoop Net Now tokenEndpoint Search Romanize ToLower EqualFold base64
     SpotifyClientId SpotifyClientSecret).
Local Abbreviation quotedLoop :=
  (quotedLoop Net Now tokenEndpoint Search ToLower EqualFold base64
     SpotifyClientId SpotifyClientSecret).
Local Abbreviation unquotedLoop :=
  (unquotedLoop Net Now tokenEndpoint Search ToLower EqualFold base64
     SpotifyClientId SpotifyClientSecret).
Local Abbreviation combinedStep :=
  (combinedStep Net Now tokenEndpoint Search ToLower EqualFold base64
     SpotifyClientId SpotifyClientSecret).
Local Abbreviation GetArtistImages :=
  (GetArtistImages Net Now tokenEndpoint Search Romanize UniqueIgnoringCase
     ToLower EqualFold base64 SpotifyClientId SpotifyClientSecret).
Local Abbreviation queryLoop :=
  (queryLoop Net Now tokenEndpoint Search ToLower EqualFold base64
     SpotifyClientId SpotifyClientSecret).
Local Abbreviation perArtistLoop :=
  (perArtistLoop Net Now tokenEndpoint Search Romanize ToLower EqualFold base64
     SpotifyClientId SpotifyClientSecret).
Local Abbreviation combinedAlbumStep :=
  (combinedAlbumStep Net Now tokenEndpoint Search Romanize ToLower EqualFold
     base64 SpotifyClientId SpotifyClientSecret).
Local Abbreviation GetAlbumImages :=
  (GetAlbumImages Net Now tokenEndpoint Search Romanize UniqueIgnoringCase
     ToLower EqualFold base64 SpotifyClientId SpotifyClientSecret).
Local Abbreviation firstMatch :=
  (firstMatch Net Now tokenEndpoint Search base64 SpotifyClientId
     SpotifyClientSecret).
Local Abbreviation artistPlan := (artistPlan Romanize ToLower EqualFold).
Local Abbreviation threadStep :=
  (threadStep Net Now tokenEndpoint base64 SpotifyClientId SpotifyClientSecret).
Local Abbreviation schedStep :=
  (schedStep Net Now tokenEndpoint base64 SpotifyClientId SpotifyClientSecret).
Local Abbreviation run :=
  (run Net Now tokenEndpoint base64 SpotifyClientId SpotifyClientSecret).

Local Abbreviation configured := (configured SpotifyClientId SpotifyClientSecret).
Local Abbreviation tokenHeader :=
  (tokenHeader Net base64 SpotifyClientId SpotifyClientSecret).
Local Abbreviation searchSent :=
  (searchSent Net Now tokenEndpoint base64 SpotifyClientId SpotifyClientSecret).
Local Abbreviation keepsQueue := (keepsQueue Net).
Local Abbreviation checksFindStale :=
  (checksFindStale Net Now tokenEndpoint base64 SpotifyClientId SpotifyClientSecret).

(** ** The request queue is left alone *)

Lemma keepsQueue_ret {A} (a : A) : keepsQueue (ret Net a).
Proof. intros w. reflexivity. Qed.

Lemma keepsQueue_bind {A B} (m : M A) (k : A -> M B) :
  keepsQueue m -> (forall a, keepsQueue (k a)) -> keepsQueue (bind Net m k).
Proof.
  intros Hm Hk w. unfold bind. specialize (Hm w).
  destruct (m w) as [[a|e] w']; cbn in *; [rewrite Hk|]; exact Hm.
Qed.

Lemma keepsQueue_wrap {A} (prefix : string) (m : M A) :
  keepsQueue m -> keepsQueue (wrap Net prefix m).
Proof.
  intros Hm w. unfold wrap. specialize (Hm w).
  destruct (m w) as [[a|e] w']; exact Hm.
Qed.

Lemma keepsQueue_authenticate : keepsQueue authenticate.
Proof.
  intros w. unfold Images.authenticate.
  destruct (String.eqb SpotifyClientId "" || String.eqb SpotifyClientSecret "");
    [reflexivity|].
  destruct (tokenEndpoint _ _) as [net' [e|code body|e|tok expires]]; reflexivity.
Qed.

Lemma keepsQueue_ensureToken : keepsQueue ensureToken.
Proof.
  intros w. unfold Images.ensureToken.
  destruct (tokenStale w); [apply keepsQueue_authenticate | reflexivity].
Qed.

Lemma keepsQueue_searchEntity (query : string) (ty : SearchType) :
  keepsQueue (searchEntity query ty).
Proof.
  intros w. unfold Images.searchEntity.
  pose proof (keepsQueue_ensureToken w) as H.
  destruct (ensureToken w) as [[[]|e] w1]; cbn in *; [|exact H].
  destruct (Search _ _ _ _) as [net' [r|e]]; exact H.
Qed.

Lemma keepsQueue_orElse (a b : M (option string)) :
  keepsQueue a -> keepsQueue b -> keepsQueue (orElse Net a b).
Proof.
  intros Ha Hb. apply keepsQueue_bind; [exact Ha|].
  intros [img|]; [apply keepsQueue_ret | exact Hb].
Qed.

Lemma keepsQueue_notFound (msg : string) (m : M (option string)) :
  keepsQueue m -> keepsQueue (notFound Net msg m).
Proof.
  intros Hm. apply keepsQueue_bind; [exact Hm|].
  intros [img|]; [apply keepsQueue_ret | intros w; reflexivity].
Qed.

Lemma keepsQueue_artistSearch (query : string) : keepsQueue (artistSearch query).
Proof. apply keepsQueue_wrap, keepsQueue_searchEntity. Qed.

Lemma keepsQueue_albumSearch (query : string) : keepsQueue (albumSearch query).
Proof. apply keepsQueue_wrap, keepsQueue_searchEntity. Qed.

(** A loop whose iterations search and then either return or go on. *)
Lemma keepsQueue_search_then {A} (search : M A) (pick : A -> option string)
  (next : M (option string)) :
  keepsQueue search -> keepsQueue next ->
  keepsQueue (bind Net search (fun results =>
    match pick results with
    | Some img => ret Net (Some img)
    | None => next
    end)).
Proof.
  intros Hs Hn. apply keepsQueue_bind; [exact Hs|].
  intros results. destruct (pick results); [apply keepsQueue_ret | exact Hn].
Qed.

Lemma keepsQueue_romanizedLoop (l : list string) : keepsQueue (romanizedLoop l).
Proof.
  induction l as [|a rest IH]; cbn; [apply keepsQueue_ret|].
  destruct (String.eqb (Romanize a) ""); [exact IH|].
  apply keepsQueue_search_then; [apply keepsQueue_artistSearch | exact IH].
Qed.

Lemma keepsQueue_quotedLoop (l : list string) : keepsQueue (quotedLoop l).
Proof.
  induction l as [|a rest IH]; cbn; [apply keepsQueue_ret|].
  apply keepsQueue_search_then; [apply keepsQueue_artistSearch | exact IH].
Qed.

Lemma keepsQueue_unquotedLoop (l : list string) : keepsQueue (unquotedLoop l).
Proof.
  induction l as [|a rest IH]; cbn; [apply keepsQueue_ret|].
  apply keepsQueue_search_then; [apply keepsQueue_artistSearch | exact IH].
Qed.

Lemma keepsQueue_combinedStep (l : list string) : keepsQueue (combinedStep l).
Proof.
  unfold Images.combinedStep.
  destruct (1 <? length l)%nat; [|apply keepsQueue_ret].
  apply keepsQueue_bind; [apply keepsQueue_artistSearch|].
  intros results. apply keepsQueue_ret.
Qed.

Lemma keepsQueue_queryLoop (album : string) (qs : list string) :
  keepsQueue (queryLoop album qs).
Proof.
  induction qs as [|q rest IH]; cbn; [apply keepsQueue_ret|].
  apply keepsQueue_search_then; [apply keepsQueue_albumSearch | exact IH].
Qed.

Lemma keepsQueue_perArtistLoop (album : string) (l : list string) :
  keepsQueue (perArtistLoop album l).
Proof.
  induction l as [|a rest IH]; cbn; [apply keepsQueue_ret|].
  apply keepsQueue_orElse; [apply keepsQueue_queryLoop | exact IH].
Qed.

Lemma keepsQueue_GetArtistImages (aliases : list string) :
  keepsQueue (GetArtistImages aliases).
Proof.
  unfold Images.GetArtistImages.
  apply keepsQueue_notFound.
  apply keepsQueue_orElse; [apply keepsQueue_romanizedLoop|].
  apply keepsQueue_orElse; [apply keepsQueue_quotedLoop|].
  apply keepsQueue_orElse; [apply keepsQueue_unquotedLoop|].
  apply keepsQueue_combinedStep.
Qed.

Lemma keepsQueue_GetAlbumImages (artists : list string) (album : string) :
  keepsQueue (GetAlbumImages artists album).
Proof.
  unfold Images.GetAlbumImages.
  apply keepsQueue_notFound.
  apply keepsQueue_orElse; [apply keepsQueue_perArtistLoop|].
  apply keepsQueue_orElse; [|apply keepsQueue_queryLoop].
  unfold Images.combinedAlbumStep.
  destruct (1 <? length _)%nat; [apply keepsQueue_queryLoop | apply keepsQueue_ret].
Qed.

(** ** The token check of [searchEntity] *)


(** What [authenticate] sends: one token request when the credentials are
    configured, nothing otherwise. *)
Lemma authenticate_trace (w : World) :
  trace (snd (authenticate w)) =
    trace w ++ (if configured then [TokenRequest (tokenHeader w)] else []).
Proof.
  unfold Images.authenticate, configured, tokenHeader.
  destruct (String.eqb SpotifyClientId "" || String.eqb SpotifyClientSecret "");
    cbn; [symmetry; apply app_nil_r|].
  destruct (tokenEndpoint _ _) as [net' [e|code body|e|tok expires]]; reflexivity.
Qed.

Lemma authenticate_unconfigured (w : World) :
  configured = false -> exists e, authenticate w = (Err e, w).
Proof.
  unfold Images.authenticate, configured. intros H.
  apply negb_false_iff in H. rewrite H. eexists. reflexivity.
Qed.

Lemma ensureToken_trace (w : World) :
  trace (snd (ensureToken w)) =
    trace w ++ (if tokenStale w && configured
                then [TokenRequest (tokenHeader w)] else []).
Proof.
  unfold Images.ensureToken. destruct (tokenStale w); cbn.
  - apply authenticate_trace.
  - symmetry; apply app_nil_r.
Qed.

Lemma searchEntity_trace (query : string) (ty : SearchType) (w : World) :
  trace (snd (searchEntity query ty w)) =
    trace w
    ++ (if tokenStale w && configured then [TokenRequest (tokenHeader w)] else [])
    ++ searchSent query ty w.
Proof.
  unfold Images.searchEntity, searchSent.
  pose proof (ensureToken_trace w) as H.
  destruct (ensureToken w) as [[[]|e] w1]; cbn in H |- *.
  - destruct (Search _ _ _ _) as [net' [r|e]]; cbn; rewrite H, <- app_assoc; reflexivity.
  - rewrite H, app_nil_r. reflexivity.
Qed.


(** C1, as the code has it: [searchEntity], and with it every search of
    [GetArtistImages] and [GetAlbumImages], leaves the request queue of the
    client exactly as it found it (nothing is submitted to it), and hands
    the query to the Spotify search client itself as soon as [ensureToken]
    has returned. *)
Theorem searches_bypass_request_queue
  (aliases artists : list string) (album query : string) (ty : SearchType)
  (w : World) :
  requestQueue (client (snd (searchEntity query ty w))) = requestQueue (client w)
  /\ requestQueue (client (snd (GetArtistImages aliases w)))
     = requestQueue (client w)
  /\ requestQueue (client (snd (GetAlbumImages artists album w)))
     = requestQueue (client w)
  /\ (forall w1, ensureToken w = (Ok tt, w1) ->
       trace (snd (searchEntity query ty w))
       = trace w1 ++ [SearchRequest (roundTrip (client w1) None) query ty]).
Proof.
  split; [apply keepsQueue_searchEntity|].
  split; [apply keepsQueue_GetArtistImages|].
  split; [apply keepsQueue_GetAlbumImages|].
  intros w1 H. unfold Images.searchEntity. rewrite H.
  destruct (Search _ _ _ _) as [net' [r|e]]; reflexivity.
Qed.

(** ** Which entity a strategy accepts *)

Lemma artistLoop_skip (test : string -> bool) (pre rest : list FullArtist.t) :
  Forall (fun x => acceptedBy test x = false) pre ->
  artistLoop test (pre ++ rest) = artistLoop test rest.
Proof.
  induction 1 as [|x pre Hx _ IH]; cbn; [reflexivity|].
  unfold acceptedBy in Hx.
  destruct (test (FullArtist.Name x)); [|exact IH].
  destruct (FullArtist.Images x); [exact IH | discriminate].
Qed.

Lemma artistLoop_Some (test : string -> bool) (l : list FullArtist.t) (img : string) :
  artistLoop test l = Some img <->
  exists pre artist post,
    l = pre ++ artist :: post
    /\ Forall (fun x => acceptedBy test x = false) pre
    /\ acceptedBy test artist = true
    /\ firstImage artist = Some img.
Proof.
  split.
  - induction l as [|x l IH]; cbn; [discriminate|].
    intros H. destruct (acceptedBy test x) eqn:Hx.
    + exists [], x, l. unfold acceptedBy, firstImage in *.
      destruct (test (FullArtist.Name x)); [|discriminate].
      destruct (FullArtist.Images x); [discriminate|].
      repeat split; [constructor | exact H].
    + assert (Hl : artistLoop test l = Some img).
      { unfold acceptedBy in Hx. destruct (test (FullArtist.Name x)); [|exact H].
        destruct (FullArtist.Images x); [exact H | discriminate]. }
      destruct (IH Hl) as (pre & artist & post & -> & Hpre & Ha & Hi).
      exists (x :: pre), artist, post.
      repeat split; [constructor; assumption | exact Ha | exact Hi].
  - intros (pre & artist & post & -> & Hpre & Ha & Hi).
    rewrite (artistLoop_skip test pre _ Hpre). cbn.
    unfold acceptedBy, firstImage in *.
    destruct (test (FullArtist.Name artist)); [|discriminate].
    destruct (FullArtist.Images artist); [discriminate | exact Hi].
Qed.

(** C5, as the code has it: in the first strategy (the romanized
    exact-phrase query) an entity is taken exactly when its name equals the
    romanized form or the alias without regard to case, or its lower-cased
    name contains the lower-cased alias, and it has at least one image;
    among the entities returned, the first such one gives the image. That
    the name contains the romanized form is not among the tests. *)
Theorem romanized_strategy_acceptance
  (romanized a : string) (artist : FullArtist.t) (l : list FullArtist.t)
  (img : string) :
  let test := fun n => nameMatchesRomanized n romanized a in
  (acceptedBy test artist = true <->
   (EqualFold (FullArtist.Name artist) romanized = true
    \/ EqualFold (FullArtist.Name artist) a = true
    \/ Contains (ToLower (FullArtist.Name artist)) (ToLower a) = true)
   /\ FullArtist.Images artist <> [])
  /\ (is_Some (pickArtist test {| Artists := Some [artist]; Albums := None |})
      <-> acceptedBy test artist = true)
  /\ (pickArtist test {| Artists := Some l; Albums := None |} = Some img <->
      exists pre x post,
        l = pre ++ x :: post
        /\ Forall (fun y => acceptedBy test y = false) pre
        /\ acceptedBy test x = true
        /\ firstImage x = Some img).
Proof.
  intros test. split; [|split].
  - unfold acceptedBy, test, Images.nameMatchesRomanized.
    rewrite andb_true_iff, !orb_true_iff.
    destruct (FullArtist.Images artist); split.
    + intros [_ H]. discriminate.
    + intros [_ H]. congruence.
    + intros [[[H|H]|H] _]; (split; [tauto | discriminate]).
    + intros [[H|[H|H]] _]; (split; [tauto | reflexivity]).
  - unfold Images.pickArtist, acceptedBy. cbn.
    destruct (test (FullArtist.Name artist)); cbn.
    + destruct (FullArtist.Images artist); split; intros H;
        try discriminate; try reflexivity; try (eexists; reflexivity).
      destruct H as [x H]. discriminate.
    + split; [intros [x H]; discriminate | discriminate].
  - unfold Images.pickArtist. cbn. destruct l as [|x l].
    + cbn. split; [discriminate|].
      intros (pre & y & post & H & _). destruct pre; discriminate.
    + cbn [length Nat.ltb Nat.leb]. apply artistLoop_Some.
Qed.

(** ** The artist cascade as a list of strategies *)

Lemma orElse_ext (a a' b b' : M (option string)) (w : World) :
  (forall w0, a w0 = a' w0) -> (forall w0, b w0 = b' w0) ->
  orElse Net a b w = orElse Net a' b' w.
Proof.
  intros Ha Hb. unfold orElse, bind. rewrite Ha.
  destruct (a' w) as [[[img|]|e] w']; [reflexivity | apply Hb | reflexivity].
Qed.

Lemma orElse_ret_None (b : M (option string)) (w : World) :
  orElse Net (ret Net None) b w = b w.
Proof. reflexivity. Qed.

Lemma firstMatch_app (p q : list Strategy) (w : World) :
  firstMatch (p ++ q) w = orElse Net (firstMatch p) (firstMatch q) w.
Proof.
  revert w. induction p as [|[query pick] p IH]; intros w; cbn; [reflexivity|].
  unfold orElse, bind.
  destruct (artistSearch query w) as [[results|e] w']; [|reflexivity].
  destruct (pick results) as [img|]; [reflexivity|].
  rewrite IH. reflexivity.
Qed.

Lemma romanizedLoop_plan (l : list string) (w : World) :
  romanizedLoop l w = firstMatch (romanizedStrategies Romanize ToLower EqualFold l) w.
Proof.
  revert w. induction l as [|a rest IH]; intros w; cbn; [reflexivity|].
  destruct (String.eqb (Romanize a) ""); cbn; [apply IH|].
  unfold bind. destruct (artistSearch _ w) as [[results|e] w']; [|reflexivity].
  destruct (pickArtist _ results); [reflexivity | apply IH].
Qed.

Lemma quotedLoop_plan (l : list string) (w : World) :
  quotedLoop l w = firstMatch (quotedStrategies ToLower EqualFold l) w.
Proof.
  revert w. induction l as [|a rest IH]; intros w; cbn; [reflexivity|].
  unfold bind. destruct (artistSearch _ w) as [[results|e] w']; [|reflexivity].
  destruct (pickArtist _ results); [reflexivity | apply IH].
Qed.

Lemma unquotedLoop_plan (l : list string) (w : World) :
  unquotedLoop l w = firstMatch (unquotedStrategies ToLower EqualFold l) w.
Proof.
  revert w. induction l as [|a rest IH]; intros w; cbn; [reflexivity|].
  unfold bind. destruct (artistSearch _ w) as [[results|e] w']; [|reflexivity].
  destruct (pickArtist _ results); [reflexivity | apply IH].
Qed.

Lemma combinedStep_plan (l : list string) (w : World) :
  combinedStep l w = firstMatch (combinedStrategies ToLower EqualFold l) w.
Proof.
  unfold Images.combinedStep, combinedStrategies.
  destruct (1 <? length l)%nat; cbn; [|reflexivity].
  unfold bind. destruct (artistSearch _ w) as [[results|e] w']; [|reflexivity].
  unfold ret. destruct (pickCombined l results); reflexivity.
Qed.

Lemma cascade_plan (l : list string) (w : World) :
  orElse Net (romanizedLoop l)
    (orElse Net (quotedLoop l)
       (orElse Net (unquotedLoop l) (combinedStep l))) w
  = firstMatch (artistPlan l) w.
Proof.
  unfold Images.artistPlan. rewrite firstMatch_app.
  apply orElse_ext; [apply romanizedLoop_plan|]. intros w1.
  rewrite firstMatch_app.
  apply orElse_ext; [apply quotedLoop_plan|]. intros w2.
  rewrite firstMatch_app.
  apply orElse_ext; [apply unquotedLoop_plan | apply combinedStep_plan].
Qed.

(** The strategies before the first one that matches are searched and
    found wanting; the match ends the run. *)
Lemma firstMatch_first (before after : list Strategy) (query : string)
  (pick : SearchResult -> option string) (w w1 w2 : World)
  (results : SearchResult) (img : string) :
  firstMatch before w = (Ok None, w1) ->
  artistSearch query w1 = (Ok results, w2) ->
  pick results = Some img ->
  firstMatch (before ++ (query, pick) :: after) w = (Ok (Some img), w2).
Proof.
  intros Hb Hs Hp. rewrite firstMatch_app. unfold orElse, bind. rewrite Hb.
  cbn. unfold bind. rewrite Hs, Hp. reflexivity.
Qed.

Lemma queries_app (t u : list Event) : queries (t ++ u) = queries t ++ queries u.
Proof. unfold queries. apply omap_app. Qed.

Lemma artistSearch_queries (query : string) (w : World) :
  match artistSearch query w with
  | (Ok _, w') => queries (trace w') = queries (trace w) ++ [query]
  | (Err _, w') =>
      queries (trace w') = queries (trace w) ++ [query]
      \/ queries (trace w') = queries (trace w)
  end.
Proof.
  unfold Images.artistSearch, wrap.
  pose proof (searchEntity_trace query SearchTypeArtist w) as Ht.
  unfold searchSent in Ht. unfold Images.searchEntity in *.
  destruct (ensureToken w) as [[[]|e] w1].
  - destruct (Search _ _ _ _) as [net' [r|e]]; cbn in Ht |- *;
      [|left]; rewrite Ht, !queries_app;
      destruct (tokenStale w && configured); cbn; rewrite ?app_nil_r; reflexivity.
  - cbn in Ht |- *. right. rewrite Ht, !queries_app.
    destruct (tokenStale w && configured); cbn; rewrite ?app_nil_r; reflexivity.
Qed.

(** The queries a run sends are an initial part of the queries of the
    plan, in the order of the plan. *)
Lemma firstMatch_queries (plan : list Strategy) (w : World) :
  exists n : nat,
    queries (trace (snd (firstMatch plan w)))
    = queries (trace w) ++ take n (map fst plan).
Proof.
  revert w. induction plan as [|[query pick] plan IH]; intros w; cbn.
  - exists 0%nat. symmetry. apply app_nil_r.
  - unfold bind. pose proof (artistSearch_queries query w) as Hq.
    destruct (artistSearch query w) as [[results|e] w'].
    + destruct (pick results) as [img|].
      * exists 1%nat. cbn. rewrite take_0. exact Hq.
      * destruct (IH w') as [n Hn]. exists (S n). rewrite Hn, Hq.
        cbn. rewrite <- app_assoc. reflexivity.
    + destruct Hq as [Hq|Hq].
      * exists 1%nat. cbn. rewrite take_0. exact Hq.
      * exists 0%nat. cbn. rewrite app_nil_r. exact Hq.
Qed.

(** C4, as the code has it: [GetArtistImages] runs the strategies of
    [artistPlan] in their order (per alias the romanized exact phrase, where
    there is a romanized form; per alias the original exact phrase; per alias
    the original unquoted; and, only when there is more than one alias, the
    combined query) and stops at the first that matches: the queries sent are
    an initial part of the plan, the image is that of the first strategy that
    matches, a search that fails ends the run with its error, and when no
    strategy matches the result is the error "artist image not found". *)
Theorem GetArtistImages_first_match_wins (aliases : list string) (w : World) :
  let plan := artistPlan (UniqueIgnoringCase aliases) in
  GetArtistImages aliases w
  = notFound Net "GetArtistImages: artist image not found" (firstMatch plan) w
  /\ (exists n : nat,
        queries (trace (snd (GetArtistImages aliases w)))
        = queries (trace w) ++ take n (map fst plan))
  /\ (forall (before after : list Strategy) query pick w1 results w2 img,
        plan = before ++ (query, pick) :: after ->
        firstMatch before w = (Ok None, w1) ->
        artistSearch query w1 = (Ok results, w2) ->
        pick results = Some img ->
        GetArtistImages aliases w = (Ok img, w2))
  /\ (forall e w', firstMatch plan w = (Err e, w') ->
        GetArtistImages aliases w = (Err e, w'))
  /\ (forall w', firstMatch plan w = (Ok None, w') ->
        GetArtistImages aliases w
        = (Err "GetArtistImages: artist image not found", w')).
Proof.
  intros plan.
  assert (Heq : GetArtistImages aliases w
                = notFound Net "GetArtistImages: artist image not found"
                    (firstMatch plan) w).
  { unfold Images.GetArtistImages, notFound, bind.
    rewrite cascade_plan. reflexivity. }
  split; [exact Heq|].
  split.
  { rewrite Heq. destruct (firstMatch_queries plan w) as [n Hn].
    exists n. rewrite <- Hn. unfold notFound, bind.
    destruct (firstMatch plan w) as [[[img|]|e] w']; reflexivity. }
  split.
  { intros before after query pick w1 results w2 img Hp Hb Hs Hi.
    rewrite Heq, Hp. unfold notFound, bind.
    rewrite (firstMatch_first before after query pick w w1 w2 results img Hb Hs Hi).
    reflexivity. }
  split.
  - intros e w' H. rewrite Heq. unfold notFound, bind. rewrite H. reflexivity.
  - intros w' H. rewrite Heq. unfold notFound, bind. rewrite H. reflexivity.
Qed.

(** ** Concurrent callers *)

(** One caller taking its three steps alone is [ensureToken]. *)
Lemma single_caller_is_ensureToken (w : World) :
  run [0; 0; 0]%nat (callers Net 1 w)
  = {| threads := [Finished (fst (ensureToken w))];
       shared := snd (ensureToken w) |}.
Proof.
  unfold Images.run, Images.ensureToken, Images.authenticate. cbn.
  unfold Images.schedStep. cbn.
  destruct (tokenStale w); cbn; [|reflexivity].
  destruct (String.eqb SpotifyClientId "" || String.eqb SpotifyClientSecret "");
    cbn; [reflexivity|].
  destruct (tokenEndpoint _ _) as [net' [e|code body|e|tok expires]]; reflexivity.
Qed.

Lemma countRequested_insert (l : list Pc) (i : nat) (a b : Pc) :
  l !! i = Some a ->
  (countRequested (<[i := b]> l) + (if requested a then 1 else 0)
   = countRequested l + (if requested b then 1 else 0))%nat.
Proof.
  unfold countRequested. revert i.
  induction l as [|x l IH]; intros i H; [discriminate|].
  destruct i as [|i]; cbn in H |- *.
  - injection H as Hx. subst x.
    clear IH. cbn. destruct (requested a), (requested b); cbn; lia.
  - specialize (IH i H). cbn. destruct (requested x); cbn; [f_equal|]; exact IH.
Qed.

Lemma tokenRequests_app (t u : list Event) :
  tokenRequests (t ++ u) = (tokenRequests t + tokenRequests u)%nat.
Proof. unfold tokenRequests. rewrite List.filter_app. apply length_app. Qed.

(** Each token request on the network belongs to one caller that is past
    its request, as long as no caller finds the token fresh. *)
Lemma schedStep_requests (base : nat) (cfg : Config Net) (i : nat) :
  configured = true ->
  (threads cfg !! i = Some AtCheck -> tokenStale (shared cfg) = true) ->
  tokenRequests (trace (shared cfg)) = (base + countRequested (threads cfg))%nat ->
  tokenRequests (trace (shared (schedStep cfg i)))
  = (base + countRequested (threads (schedStep cfg i)))%nat.
Proof.
  unfold Images.configured. intros Hc Hstale Hcount. apply negb_true_iff in Hc.
  unfold Images.schedStep.
  destruct (threads cfg !! i) as [pc|] eqn:Hi; [|exact Hcount].
  pose proof (countRequested_insert (threads cfg) i pc) as Hins.
  destruct pc as [| |tok expires|r].
  - unfold Images.threadStep. rewrite (Hstale eq_refl). cbn [shared trace threads].
    specialize (Hins AtRequest Hi). cbn in Hins. lia.
  - unfold Images.threadStep. rewrite Hc.
    destruct (tokenEndpoint _ _) as [net' [e|code body|e|tok expires]];
      cbn [shared trace threads]; rewrite tokenRequests_app, Hcount;
      match goal with |- context [<[i := ?b]> _] => specialize (Hins b Hi) end;
      cbn in Hins |- *; lia.
  - unfold Images.threadStep. cbn [shared trace threads].
    specialize (Hins (Finished (Ok tt)) Hi). cbn in Hins. lia.
  - unfold Images.threadStep. cbn [shared trace threads].
    specialize (Hins (Finished r) Hi). cbn in Hins. lia.
Qed.

Lemma run_requests (base : nat) (sched : list nat) (cfg : Config Net) :
  configured = true ->
  checksFindStale sched cfg = true ->
  tokenRequests (trace (shared cfg)) = (base + countRequested (threads cfg))%nat ->
  tokenRequests (trace (shared (run sched cfg)))
  = (base + countRequested (threads (run sched cfg)))%nat.
Proof.
  intros Hc. unfold Images.run. revert cfg.
  induction sched as [|i sched IH]; intros cfg Hchk H; cbn; [exact H|].
  cbn in Hchk. apply andb_prop in Hchk as [Hi Hrest].
  apply IH; [exact Hrest|].
  apply schedStep_requests; [exact Hc | | exact H].
  intros Hat. rewrite Hat in Hi. exact Hi.
Qed.

Lemma schedStep_length (cfg : Config Net) (i : nat) :
  length (threads (schedStep cfg i)) = length (threads cfg).
Proof.
  unfold Images.schedStep. destruct (threads cfg !! i) as [pc|]; [|reflexivity].
  destruct (threadStep pc (shared cfg)) as [pc' w']. cbn. apply length_insert.
Qed.

Lemma run_length (sched : list nat) (cfg : Config Net) :
  length (threads (run sched cfg)) = length (threads cfg).
Proof.
  unfold Images.run. revert cfg.
  induction sched as [|i sched IH]; intros cfg; cbn; [reflexivity|].
  rewrite IH. apply schedStep_length.
Qed.

Lemma countRequested_allFinished (l : list Pc) :
  forallb isFinished l = true -> countRequested l = length l.
Proof.
  unfold countRequested. induction l as [|pc l IH]; cbn; [reflexivity|].
  intros H. apply andb_prop in H as [Hpc Hl].
  destruct pc; try discriminate. cbn. rewrite IH by exact Hl. reflexivity.
Qed.

Lemma countRequested_AtCheck (n : nat) : countRequested (replicate n AtCheck) = 0%nat.
Proof. unfold countRequested. induction n; cbn; assumption || reflexivity. Qed.

(** C7, as the code has it: [ensureToken] holds no lock and shares no
    refresh in flight. When the credentials are configured and each of [n]
    concurrent callers finds the token stale at its own check, every one of
    them sends its own token request: once all have finished, [n] token
    requests have gone out, however the steps of the callers interleave
    (a caller may well make its check while the request of another is in
    flight, or after it has come back). *)
Theorem stale_callers_each_refresh (n : nat) (sched : list nat) (w : World) :
  configured = true ->
  checksFindStale sched (callers Net n w) = true ->
  allFinished Net (run sched (callers Net n w)) = true ->
  tokenRequests (trace (shared (run sched (callers Net n w))))
  = (tokenRequests (trace w) + n)%nat.
Proof.
  intros Hc Hchk Hfin.
  rewrite (run_requests (tokenRequests (trace w)) sched (callers Net n w) Hc Hchk).
  - f_equal. rewrite countRequested_allFinished by exact Hfin.
    rewrite run_length. cbn. apply length_replicate.
  - unfold callers. cbn [shared trace threads].
    rewrite countRequested_AtCheck. lia.
Qed.

End ClientProperties.

(** ** The client on concrete worlds *)

Section ClientRuns.

Import Strings Images Concrete.

(** The example of the specification: with the aliases "米津玄師" and
    "Kenshi Yonezu", the image of the romanized exact-phrase match is
    returned although the unquoted query on the original name would match
    as well; one search is sent. *)
Example romanized_match_has_priority :
  pickArtist (fun n => nameMatches ToLower EqualFold n kanji)
    (yonezu (unquoted "artist" kanji) SearchTypeArtist)
  = Some "https://i.scdn.co/image/original"
  /\ fst (getArtistImages yonezu [kanji; "Kenshi Yonezu"] newClient)
     = Ok "https://i.scdn.co/image/romanized"
  /\ queries (trace (snd (getArtistImages yonezu [kanji; "Kenshi Yonezu"] newClient)))
     = [quoted "artist" "Kenshi Yonezu"].
Proof. vm_compute. repeat split; reflexivity. Qed.

(** C1, as stated, fails: a lookup for one alias sends three searches to
    the network while the request queue of the client has accepted no task. *)
Lemma searches_sent_without_queue :
  let w := snd (getArtistImages noResults [kanji] newClient) in
  searchRequests (trace w) = 3%nat
  /\ Queue.accepted (requestQueue (client w)) = 0%nat
  /\ ~ (searchRequests (trace w) <= Queue.accepted (requestQueue (client w)))%nat.
Proof.
  vm_compute. split; [reflexivity|]. split; [reflexivity|]. intros H.
  apply Nat.nle_succ_0 in H. exact H.
Qed.

(** C4, as stated, fails: with a single alias the combined query is not
    sent (three strategies run, not four), and running out of strategies
    gives an error. *)
Lemma single_alias_cascade :
  fst (getArtistImages noResults [kanji] newClient)
  = Err "GetArtistImages: artist image not found"
  /\ queries (trace (snd (getArtistImages noResults [kanji] newClient)))
     = [quoted "artist" "Kenshi Yonezu"; quoted "artist" kanji;
        unquoted "artist" kanji].
Proof. vm_compute. split; reflexivity. Qed.

Lemma GetArtistImages_first_match_wins_witness :
  let aliases := [kanji; "Kenshi Yonezu"] in
  let plan := artistPlan Romanize ToLower EqualFold (UniqueIgnoringCase aliases) in
  let w1 :=
    snd (firstMatch Net Now tokenEndpoint (searchIn looseOnly) base64 "id" "secret"
           (take 3 plan) newClient) in
  let w2 :=
    snd (artistSearch Net Now tokenEndpoint (searchIn looseOnly) base64 "id" "secret"
           (unquoted "artist" kanji) w1) in
  getArtistImages looseOnly aliases newClient
  = (Ok "https://i.scdn.co/image/original", w2).
Proof.
  exact (proj1 (proj2 (proj2
           (GetArtistImages_first_match_wins Net Now tokenEndpoint
              (searchIn looseOnly) Romanize UniqueIgnoringCase ToLower EqualFold
              base64 "id" "secret" [kanji; "Kenshi Yonezu"] newClient)))
           (take 3 (artistPlan Romanize ToLower EqualFold
                      (UniqueIgnoringCase [kanji; "Kenshi Yonezu"])))
           (drop 4 (artistPlan Romanize ToLower EqualFold
                      (UniqueIgnoringCase [kanji; "Kenshi Yonezu"])))
           (unquoted "artist" kanji)
           (pickArtist (fun n => nameMatches ToLower EqualFold n kanji))
           _ (looseOnly (unquoted "artist" kanji) SearchTypeArtist) _
           "https://i.scdn.co/image/original"
           eq_refl eq_refl eq_refl eq_refl).
Defined.

(** C5, as stated, fails: an entity whose name contains the romanized form
    of the alias, without being equal to it, is not taken by the first
    strategy. *)
Lemma name_containing_romanization_not_accepted :
  let artist := {| FullArtist.Name := "Kenshi Yonezu Official";
                   FullArtist.Images := portrait "official" |} in
  Contains (ToLower (FullArtist.Name artist)) (ToLower (Romanize kanji)) = true
  /\ pickArtist (fun n => nameMatchesRomanized ToLower EqualFold n (Romanize kanji) kanji)
       {| Artists := Some [artist]; Albums := None |}
     = None.
Proof. vm_compute. split; reflexivity. Qed.

(** C7, as stated, fails: two callers that both find the token missing
    each send a token request. The callers take their steps in turn: both
    check, both send, both store. *)
Lemma two_stale_callers_two_refreshes :
  let cfg := interleave [0; 1; 0; 1; 0; 1]%nat (callers Net 2 unauthenticated) in
  tokenStale Net Now unauthenticated = true
  /\ allFinished Net cfg = true
  /\ tokenRequests (trace (shared cfg)) = 2%nat.
Proof. vm_compute. repeat split; reflexivity. Qed.

Lemma stale_callers_each_refresh_witness :
  tokenRequests
    (trace (shared (interleave [0; 0; 1; 1; 0; 1]%nat
                      (callers Net 2 unauthenticated))))
  = (tokenRequests (trace unauthenticated) + 2)%nat.
Proof.
  exact (stale_callers_each_refresh Net Now tokenEndpoint base64 "id" "secret"
           2 [0; 0; 1; 1; 0; 1]%nat unauthenticated eq_refl eq_refl eq_refl).
Defined.


End ClientRuns.

(** * Further properties of the importer *)

Section ImporterInvariants.

Import Importer.

Variable Store : Type.
Variable SubmitListen : Store -> SubmitListenOpts -> Store * option string.
Variable inImportTimeWindow : GoTime.Time -> bool.
Variable finishImport : string -> nat -> option string.
Variable FetchImagesDuringImport : bool.
Variable ThrottleImportMs : Z.

Local Abbreviation mkOpts := (mkOpts FetchImagesDuringImport).
Local Abbreviation throttle := (throttle ThrottleImportMs).
Local Abbreviation survives := (survives Store inImportTimeWindow).
Local Abbreviation loopBody :=
  (loopBody Store SubmitListen inImportTimeWindow FetchImagesDuringImport
     ThrottleImportMs).
Local Abbreviation importLoop :=
  (importLoop Store SubmitListen inImportTimeWindow FetchImagesDuringImport
     ThrottleImportMs).

(** The key of the duplicate map, read off the options of a submission. *)
Definition optsKey (o : SubmitListenOpts) : string :=
  Artist o +:+ "|" +:+ TrackTitle o +:+ "|" +:+ ReleaseTitle o.

(** The filters that look at the record alone. *)
Definition playable (item : SpotifyExportItem) : Prop :=
  ReasonEnd item = "trackdone"
  /\ inImportTimeWindow (Timestamp item) = true
  /\ TrackName item <> EmptyString
  /\ ArtistName item <> EmptyString.

(** Submissions of one key are five seconds apart or more, in the order
    they were made. *)
Definition apart (cs : list SubmitListenOpts) : Prop :=
  forall (i j : nat) (oi oj : SubmitListenOpts),
    (i < j)%nat -> cs !! i = Some oi -> cs !! j = Some oj ->
    optsKey oi = optsKey oj ->
    Time oi + 5 * GoTime.Second <= Time oj.

(** Every submission is remembered, under its key, with its own time or a
    later one. *)
Definition remembered (st : LoopState Store) : Prop :=
  forall o, o ∈ calls st ->
    exists t, lastImported st !! optsKey o = Some t /\ Time o <= t.

(** What is remembered is the time of a submission of that key. *)
Definition grounded (st : LoopState Store) : Prop :=
  forall k t, lastImported st !! k = Some t ->
    exists o, o ∈ calls st /\ optsKey o = k /\ Time o = t.

Lemma survives_playable (st : LoopState Store) (item : SpotifyExportItem) :
  survives st item = true -> playable item.
Proof.
  intros H. apply survives_true in H as (H1 & H2 & H3 & _).
  apply orb_false_elim in H3 as [Ht Ha].
  repeat split.
  - apply String.eqb_eq. exact H1.
  - exact H2.
  - intros E. rewrite E in Ht. discriminate.
  - intros E. rewrite E in Ha. discriminate.
Qed.

Lemma survives_not_duplicate (st : LoopState Store) (item : SpotifyExportItem) (t : Z) :
  survives st item = true ->
  lastImported st !! dedupKey item = Some t ->
  t + 5 * GoTime.Second <= Timestamp item.
Proof.
  intros H Ht. apply survives_true in H as (_ & _ & _ & H).
  destruct (Z.le_gt_cases (t + 5 * GoTime.Second) (Timestamp item)) as [Hle|Hgt];
    [exact Hle|].
  assert (Hd : isDuplicate (lastImported st) item = true).
  { apply isDuplicate_spec. exists t. split; [exact Ht | lia]. }
  congruence.
Qed.

Lemma apart_snoc (cs : list SubmitListenOpts) (new : SubmitListenOpts) :
  apart cs ->
  (forall o, o ∈ cs -> optsKey o = optsKey new ->
             Time o + 5 * GoTime.Second <= Time new) ->
  apart (cs ++ [new]).
Proof.
  intros Hcs Hnew i j oi oj Hij Hi Hj Hk.
  apply lookup_snoc_Some in Hj as [[Hjl Hj] | [Hjl ->]].
  - apply lookup_snoc_Some in Hi as [[_ Hi] | [Hil _]]; [|lia].
    exact (Hcs i j oi oj Hij Hi Hj Hk).
  - apply lookup_snoc_Some in Hi as [[_ Hi] | [Hil _]]; [|lia].
    apply Hnew; [eapply list_elem_of_lookup_2; exact Hi | exact Hk].
Qed.

(** One iteration keeps the submissions apart; if the loop goes on, what
    was submitted is remembered and what is remembered was submitted. *)
Lemma loopBody_invariant (st : LoopState Store) (item : SpotifyExportItem) :
  apart (calls st) -> remembered st -> grounded st ->
  apart (calls (fst (loopBody st item)))
  /\ (snd (loopBody st item) = None ->
      remembered (fst (loopBody st item)) /\ grounded (fst (loopBody st item))).
Proof.
  intros Ha Hr Hg. destruct (survives st item) eqn:Hs.
  2:{ rewrite (loopBody_filtered _ _ _ _ _ st item Hs). cbn. auto. }
  rewrite (loopBody_submitted _ SubmitListen _ _ _ st item Hs).
  assert (Hnew : forall o, o ∈ calls st -> optsKey o = optsKey (mkOpts item) ->
                           Time o + 5 * GoTime.Second <= Time (mkOpts item)).
  { intros o Ho Hk. destruct (Hr o Ho) as (t & Ht & Hle).
    rewrite Hk in Ht.
    pose proof (survives_not_duplicate st item t Hs Ht) as H5. cbn. lia. }
  destruct (SubmitListen (store st) (mkOpts item)) as [s' [e|]];
    cbn [fst snd calls lastImported].
  - split; [apply apart_snoc; assumption | discriminate].
  - split; [apply apart_snoc; assumption|]. intros _. split.
    + intros o Ho. cbn [calls lastImported] in *.
      apply elem_of_app in Ho as [Ho|Ho].
      * destruct (Hr o Ho) as (t & Ht & Hle).
        destruct (decide (optsKey o = dedupKey item)) as [Hk|Hk].
        -- exists (Timestamp item). rewrite Hk, lookup_insert_eq.
           split; [reflexivity|]. rewrite Hk in Ht.
           pose proof (survives_not_duplicate st item t Hs Ht).
           unfold GoTime.Second in *. lia.
        -- exists t. rewrite lookup_insert_ne by congruence. auto.
      * apply list_elem_of_singleton in Ho as ->.
        exists (Timestamp item). split; [apply lookup_insert_eq | cbn; lia].
    + intros k t Hk. cbn [calls lastImported] in *.
      apply lookup_insert_Some in Hk as [[<- <-] | [Hne Hk]].
      * exists (mkOpts item). split; [|split; reflexivity].
        apply elem_of_app. right. apply list_elem_of_singleton. reflexivity.
      * destruct (Hg k t Hk) as (o & Ho & Hko & Hto).
        exists o. split; [apply elem_of_app; left; exact Ho | auto].
Qed.

Lemma importLoop_invariant (export : list SpotifyExportItem) (st : LoopState Store) :
  apart (calls st) -> remembered st -> grounded st ->
  apart (calls (fst (importLoop st export)))
  /\ (snd (importLoop st export) = None ->
      remembered (fst (importLoop st export))
      /\ grounded (fst (importLoop st export))).
Proof.
  revert st. induction export as [|item rest IH]; intros st Ha Hr Hg; cbn; [auto|].
  destruct (loopBody_invariant st item Ha Hr Hg) as [Ha' Hcont].
  destruct (loopBody st item) as [st' [e|]]; cbn in *.
  - split; [exact Ha' | discriminate].
  - destruct (Hcont eq_refl) as [Hr' Hg']. apply IH; assumption.
Qed.

Lemma initState_invariant (s : Store) :
  apart (calls (initState s)) /\ remembered (initState s) /\ grounded (initState s).
Proof.
  split; [|split].
  - intros i j oi oj _ Hi. cbn in Hi. discriminate.
  - intros o Ho. cbn in Ho. apply elem_of_nil in Ho. contradiction.
  - intros k t Hk. cbn in Hk. rewrite lookup_empty in Hk. discriminate.
Qed.

Local Abbreviation ImportSpotifyFile :=
  (ImportSpotifyFile Store SubmitListen inImportTimeWindow finishImport
     FetchImagesDuringImport ThrottleImportMs).

(** X1: the duplicate test of the loop, for any two instants (the
    saturation of [Sub] never shows): a record is a duplicate exactly when
    its key is remembered and its time less the remembered time is under
    five seconds. So a key that is not remembered is never a duplicate, a
    record at or before the remembered time always is, and one exactly
    five seconds after it is not. *)
Theorem duplicate_test_signed_difference
  (m : gmap string Z) (item : SpotifyExportItem) :
  (isDuplicate m item = true <->
   exists prevTime, m !! dedupKey item = Some prevTime
                    /\ Timestamp item - prevTime < 5 * GoTime.Second)
  /\ (m !! dedupKey item = None -> isDuplicate m item = false)
  /\ (forall prevTime, m !! dedupKey item = Some prevTime ->
       Timestamp item <= prevTime -> isDuplicate m item = true)
  /\ (forall prevTime, m !! dedupKey item = Some prevTime ->
       Timestamp item = prevTime + 5 * GoTime.Second -> isDuplicate m item = false).
Proof.
  split; [apply isDuplicate_spec|]. split; [|split].
  - intros H. apply not_true_is_false. intros Hd.
    apply isDuplicate_spec in Hd as (p & Hp & _). congruence.
  - intros prev H Hle. apply isDuplicate_spec. exists prev.
    split; [exact H | unfold GoTime.Second; lia].
  - intros prev H Heq. apply not_true_is_false. intros Hd.
    apply isDuplicate_spec in Hd as (p & Hp & Hlt).
    rewrite H in Hp. injection Hp as <-. lia.
Qed.

Lemma loopBody_calls_playable (st : LoopState Store) (item : SpotifyExportItem) :
  calls (fst (loopBody st item)) = calls st
  \/ (calls (fst (loopBody st item)) = calls st ++ [mkOpts item] /\ playable item).
Proof.
  destruct (survives st item) eqn:H.
  - right. split; [|exact (survives_playable st item H)].
    rewrite (loopBody_submitted _ SubmitListen _ _ _ st item H).
    destruct (SubmitListen (store st) (mkOpts item)) as [s' [e|]]; reflexivity.
  - left. rewrite (loopBody_filtered _ _ _ _ _ st item H). reflexivity.
Qed.

Lemma importLoop_calls_sublist
  (export : list SpotifyExportItem) (st : LoopState Store) :
  exists submitted : list SpotifyExportItem,
    calls (fst (importLoop st export)) = calls st ++ map mkOpts submitted
    /\ submitted `sublist_of` export
    /\ Forall playable submitted.
Proof.
  revert st. induction export as [|item rest IH]; intros st; cbn.
  - exists []. split; [symmetry; apply app_nil_r|]. split; constructor.
  - pose proof (loopBody_calls_playable st item) as Hc.
    destruct (loopBody st item) as [st' [e|]] eqn:Hb; cbn in Hc |- *.
    + destruct Hc as [-> | [-> Hp]].
      * exists []. split; [symmetry; apply app_nil_r|].
        split; [apply sublist_nil_l | constructor].
      * exists [item]. split; [reflexivity|].
        split; [apply sublist_skip, sublist_nil_l | constructor; [exact Hp | constructor]].
    + destruct (IH st') as (sub & Heq & Hsub & Hall). rewrite Heq.
      destruct Hc as [-> | [-> Hp]].
      * exists sub. split; [reflexivity|].
        split; [apply sublist_cons, Hsub | exact Hall].
      * exists (item :: sub). split; [by rewrite <- app_assoc|].
        split; [apply sublist_skip, Hsub | constructor; assumption].
Qed.

(** X2: whatever the file holds, the submissions of the loop are made for
    records of the file, in the order of the file, and only for records
    that ended with "trackdone", lie in the import time window and have a
    track name and an artist name. *)
Theorem submissions_come_from_playable_records
  (export : list SpotifyExportItem) (st : LoopState Store) :
  exists submitted : list SpotifyExportItem,
    calls (fst (importLoop st export)) = calls st ++ map mkOpts submitted
    /\ submitted `sublist_of` export
    /\ Forall playable submitted.
Proof. apply importLoop_calls_sublist. Qed.

(** X3: in every import, whatever the order of the records and whether or
    not a submission fails, two submissions with the same key (artist, track
    and album joined with "|") are at least five seconds apart, the later
    submission having the later time. *)
Theorem same_key_submissions_five_seconds_apart
  (s : Store) (filename : string) (export : list SpotifyExportItem)
  (i j : nat) (oi oj : SubmitListenOpts) :
  let cs := calls (fst (ImportSpotifyFile s filename (Decoded export))) in
  (i < j)%nat -> cs !! i = Some oi -> cs !! j = Some oj ->
  optsKey oi = optsKey oj ->
  Time oi + 5 * GoTime.Second <= Time oj.
Proof.
  intros cs. subst cs. unfold Importer.ImportSpotifyFile.
  destruct (initState_invariant s) as (Ha & Hr & Hg).
  destruct (importLoop_invariant export (initState s) Ha Hr Hg) as [Hap _].
  destruct (importLoop (initState s) export) as [st [e|]]; cbn in *; apply Hap.
Qed.

(** X4: when the loop has gone through the file without a failed
    submission, the duplicate map holds, for each key, the time of a
    submitted record of that key, and no submitted record of the key has a
    later time; nothing is remembered for a record that was not submitted. *)
Theorem duplicate_map_tracks_submissions
  (s : Store) (export : list SpotifyExportItem) (st : LoopState Store) :
  importLoop (initState s) export = (st, None) ->
  (forall k t, lastImported st !! k = Some t ->
     exists o, o ∈ calls st /\ optsKey o = k /\ Time o = t)
  /\ (forall o, o ∈ calls st ->
       exists t, lastImported st !! optsKey o = Some t /\ Time o <= t).
Proof.
  intros H. destruct (initState_invariant s) as (Ha & Hr & Hg).
  destruct (importLoop_invariant export (initState s) Ha Hr Hg) as [_ Hc].
  rewrite H in Hc. destruct (Hc eq_refl) as [Hr' Hg']. split; assumption.
Qed.

(** The sleeps of [k] throttled submissions. *)
Definition pauses (k : nat) : list GoTime.Duration :=
  if 0 <? ThrottleImportMs
  then replicate k (GoTime.wrap64 (ThrottleImportMs * GoTime.Millisecond))
  else [].

Lemma pauses_S (k : nat) : throttle (pauses k) = pauses (S k).
Proof.
  unfold Importer.throttle, pauses. destruct (0 <? ThrottleImportMs); [|reflexivity].
  symmetry. apply replicate_S_end.
Qed.

Lemma importLoop_sleeps (export : list SpotifyExportItem) (st : LoopState Store)
  (k0 : nat) :
  sleeps st = pauses k0 ->
  exists k : nat,
    sleeps (fst (importLoop st export)) = pauses (k0 + k)
    /\ length (calls (fst (importLoop st export)))
       = (length (calls st) + k
          + match snd (importLoop st export) with Some _ => 1 | None => 0 end)%nat.
Proof.
  revert st k0. induction export as [|item rest IH]; intros st k0 Hs; cbn.
  - exists 0%nat. rewrite Nat.add_0_r. split; [exact Hs | lia].
  - destruct (survives st item) eqn:Hv.
    2:{ rewrite (loopBody_filtered _ _ _ _ _ st item Hv). apply IH, Hs. }
    rewrite (loopBody_submitted _ SubmitListen _ _ _ st item Hv).
    destruct (SubmitListen (store st) (mkOpts item)) as [s' [e|]].
    + exists 0%nat. cbn. rewrite Nat.add_0_r, length_app. cbn.
      split; [exact Hs | lia].
    + match goal with |- context [importLoop ?st1 rest] =>
        destruct (IH st1 (S k0)) as (k & Hk & Hl) end.
      { cbn. rewrite Hs. apply pauses_S. }
      exists (S k). rewrite Hk, Hl. cbn [calls]. rewrite length_app. cbn.
      split; [f_equal; lia | lia].
Qed.

(** X5: the throttle. With a delay that is zero or negative the import
    never sleeps. With a positive delay it calls [time.Sleep] once after
    each submission that succeeded, and not after a skipped record or a
    failed submission: the number of sleeps is the number of submissions,
    less the failed one if the import failed. Each sleep is for the int64
    product of the delay and a millisecond: the delay in milliseconds as
    long as it is at most 9223372036854 (beyond that the product wraps
    around). *)
Theorem throttle_after_each_stored_listen
  (s : Store) (export : list SpotifyExportItem) :
  (exists k : nat,
     sleeps (fst (importLoop (initState s) export))
     = (if 0 <? ThrottleImportMs
        then replicate k (GoTime.wrap64 (ThrottleImportMs * GoTime.Millisecond))
        else [])
     /\ length (calls (fst (importLoop (initState s) export)))
        = (k + match snd (importLoop (initState s) export) with
               | Some _ => 1
               | None => 0
               end)%nat)
  /\ (0 < ThrottleImportMs <= 9223372036854 ->
      GoTime.wrap64 (ThrottleImportMs * GoTime.Millisecond)
      = ThrottleImportMs * 1000000).
Proof.
  split.
  - destruct (importLoop_sleeps export (initState s) 0) as (k & Hk & Hl).
    { unfold pauses. cbn. destruct (0 <? ThrottleImportMs); reflexivity. }
    exists k. split; [exact Hk | exact Hl].
  - intros H. unfold GoTime.wrap64, GoTime.Millisecond.
    rewrite Z.mod_small by lia. lia.
Qed.

(** X19: the first play of a key is never lost. A record that ended with
    "trackdone", lies in the time window, has a track and an artist name,
    and whose key no earlier record of the file has, is submitted, provided
    no submission before it failed. *)
Theorem first_play_of_a_key_is_submitted
  (s : Store) (pre post : list SpotifyExportItem) (item : SpotifyExportItem)
  (st : LoopState Store) :
  importLoop (initState s) pre = (st, None) ->
  playable item ->
  Forall (fun x => dedupKey x <> dedupKey item) pre ->
  mkOpts item ∈ calls (fst (importLoop (initState s) (pre ++ item :: post))).
Proof.
  intros Hpre (Hr & Hw & Ht & Ha) Hfresh.
  destruct (initState_invariant s) as (Hap & Hrem & Hgr).
  destruct (importLoop_invariant pre (initState s) Hap Hrem Hgr) as [_ Hc].
  rewrite Hpre in Hc. destruct (Hc eq_refl) as [_ Hg]. cbn [fst] in Hg.
  destruct (importLoop_calls_sublist pre (initState s)) as (sub & Hcalls & Hsub & _).
  rewrite Hpre in Hcalls. cbn in Hcalls.
  assert (Hnone : lastImported st !! dedupKey item = None).
  { destruct (lastImported st !! dedupKey item) as [t|] eqn:Hl; [|reflexivity].
    destruct (Hg _ _ Hl) as (o & Ho & Hk & _).
    rewrite Hcalls in Ho. apply list_elem_of_fmap in Ho as (x & -> & Hx).
    rewrite Forall_forall in Hfresh.
    exfalso. apply (Hfresh x (elem_of_sublist _ _ _ Hx Hsub)). exact Hk. }
  assert (Hs : survives st item = true).
  { assert (Hd : isDuplicate (lastImported st) item = false).
    { apply not_true_is_false. intros Hd.
      apply isDuplicate_spec in Hd as (p & Hp & _). congruence. }
    unfold Importer.survives. rewrite Hd, Hw.
    apply String.eqb_neq in Ht, Ha. rewrite Ht, Ha.
    apply String.eqb_eq in Hr. rewrite Hr. reflexivity. }
  rewrite importLoop_app, Hpre. cbn [Importer.importLoop].
  pose proof (loopBody_submitted Store SubmitListen inImportTimeWindow
                FetchImagesDuringImport ThrottleImportMs st item Hs) as Hb.
  destruct (loopBody st item) as [st' r] eqn:Hlb.
  assert (Hin : mkOpts item ∈ calls st').
  { destruct (SubmitListen (store st) (mkOpts item)) as [s' [e|]];
      injection Hb as -> ->; cbn; apply elem_of_app; right;
      apply list_elem_of_singleton; reflexivity. }
  destruct r as [e|]; [exact Hin|].
  destruct (importLoop_calls_sublist post st') as (sub' & Hc' & _).
  rewrite Hc'. apply elem_of_app. left. exact Hin.
Qed.

End ImporterInvariants.

Section ImporterInvariantRuns.

Import Importer Concrete.

Lemma same_key_submissions_five_seconds_apart_witness :
  let a := play "X" "Y" "Z" T0 180000 in
  let b := play "X" "Y" "Z" (T0 + 6 * GoTime.Second) 180000 in
  Time (mkOpts false a) + 5 * GoTime.Second <= Time (mkOpts false b).
Proof.
  exact (same_key_submissions_five_seconds_apart Store SubmitListen anyTime
           finishOk false 0 [] "export.json"
           [play "X" "Y" "Z" T0 180000;
            play "X" "Y" "Z" (T0 + 6 * GoTime.Second) 180000]
           0 1
           (mkOpts false (play "X" "Y" "Z" T0 180000))
           (mkOpts false (play "X" "Y" "Z" (T0 + 6 * GoTime.Second) 180000))
           (le_n 1) eq_refl eq_refl eq_refl).
Defined.

Lemma duplicate_map_tracks_submissions_witness :
  let export := [play "X" "Y" "Z" T0 180000;
                 play "X" "Y" "Z" (T0 + 2 * GoTime.Second) 180000;
                 play "X" "W" "Z" (T0 + 200 * GoTime.Second) 180000] in
  let st := fst (importLoop Store SubmitListen anyTime false 0 (initState []) export) in
  (forall k t, lastImported st !! k = Some t ->
     exists o, o ∈ calls st /\ optsKey o = k /\ Time o = t)
  /\ (forall o, o ∈ calls st ->
       exists t, lastImported st !! optsKey o = Some t /\ Time o <= t).
Proof.
  exact (duplicate_map_tracks_submissions Store SubmitListen anyTime false 0 []
           [play "X" "Y" "Z" T0 180000;
            play "X" "Y" "Z" (T0 + 2 * GoTime.Second) 180000;
            play "X" "W" "Z" (T0 + 200 * GoTime.Second) 180000]
           _ eq_refl).
Defined.

Lemma first_play_of_a_key_is_submitted_witness :
  let pre := [play "X" "Y" "Z" T0 180000;
              play "X" "Y" "Z" (T0 + 2 * GoTime.Second) 180000] in
  let item := play "A" "B" "C" (T0 + 3 * GoTime.Second) 240000 in
  let post := [play "X" "Broken" "Z" (T0 + 300 * GoTime.Second) 180000] in
  mkOpts false item
  ∈ calls (fst (importLoop Store SubmitListen anyTime false 0 (initState [])
                  (pre ++ item :: post))).
Proof.
  refine (first_play_of_a_key_is_submitted Store SubmitListen anyTime false 0 []
           [play "X" "Y" "Z" T0 180000;
            play "X" "Y" "Z" (T0 + 2 * GoTime.Second) 180000]
           [play "X" "Broken" "Z" (T0 + 300 * GoTime.Second) 180000]
           (play "A" "B" "C" (T0 + 3 * GoTime.Second) 240000)
           (fst (importLoop Store SubmitListen anyTime false 0 (initState [])
                   [play "X" "Y" "Z" T0 180000;
                    play "X" "Y" "Z" (T0 + 2 * GoTime.Second) 180000]))
           _ _ _).
  - vm_compute. reflexivity.
  - repeat split; discriminate.
  - repeat (constructor; [intros H; vm_compute in H; discriminate H|]).
    constructor.
Defined.

End ImporterInvariantRuns.

(** * Further properties of the Spotify client *)

Section ClientFurther.

Import Strings Images.

Variable Net : Type.
Variable Now : Net -> GoTime.Time.
Variable tokenEndpoint : Net -> string -> Net * TokenReply.
Variable Search :
  Net -> option string -> string -> SearchType -> Net * (SearchResult + string).
Variable Romanize : string -> string.
Variable UniqueIgnoringCase : list string -> list string.
Variable ToLower : string -> string.
Variable EqualFold : string -> string -> bool.
Variable base64 : string -> string.
Variable SpotifyClientId SpotifyClientSecret UserAgent : string.

Local Abbreviation M := (M Net).
Local Abbreviation World := (World Net).
Local Abbreviation authenticate :=
  (authenticate Net Now tokenEndpoint base64 SpotifyClientId SpotifyClientSecret).
Local Abbreviation tokenStale := (tokenStale Net Now).
Local Abbreviation ensureToken :=
  (ensureToken Net Now tokenEndpoint base64 SpotifyClientId SpotifyClientSecret).
Local Abbreviation searchEntity :=
  (searchEntity Net Now tokenEndpoint Search base64 SpotifyClientId
     SpotifyClientSecret).
Local Abbreviation artistSearch :=
  (artistSearch Net Now tokenEndpoint Search base64 SpotifyClientId
     SpotifyClientSecret).
Local Abbreviation albumSearch :=
  (albumSearch Net Now tokenEndpoint Search base64 SpotifyClientId
     SpotifyClientSecret).
Local Abbreviation nameMatches := (nameMatches ToLower EqualFold).
Local Abbreviation nameMatchesRomanized := (nameMatchesRomanized ToLower EqualFold).
Local Abbreviation pickCombined := (pickCombined ToLower EqualFold).
Local Abbreviation romanizedLoop :=
  (romanizedLoop Net Now tokenEndpoint Search Romanize ToLower EqualFold base64
     SpotifyClientId SpotifyClientSecret).
Local Abbreviation quotedLoop :=
  (quotedLoop Net Now tokenEndpoint Search ToLower EqualFold base64
     SpotifyClientId SpotifyClientSecret).
Local Abbreviation unquotedLoop :=
  (unquotedLoop Net Now tokenEndpoint Search ToLower EqualFold base64
     SpotifyClientId SpotifyClientSecret).
Local Abbreviation combinedStep :=
  (combinedStep Net Now tokenEndpoint Search ToLower EqualFold base64
     SpotifyClientId SpotifyClientSecret).
Local Abbreviation GetArtistImages :=
  (GetArtistImages Net Now tokenEndpoint Search Romanize UniqueIgnoringCase
     ToLower EqualFold base64 SpotifyClientId SpotifyClientSecret).
Local Abbreviation queryLoop :=
  (queryLoop Net Now tokenEndpoint Search ToLower EqualFold base64
     SpotifyClientId SpotifyClientSecret).
Local Abbreviation perArtistLoop :=
  (perArtistLoop Net Now tokenEndpoint Search Romanize ToLower EqualFold base64
     SpotifyClientId SpotifyClientSecret).
Local Abbreviation combinedAlbumStep :=
  (combinedAlbumStep Net Now tokenEndpoint Search Romanize ToLower EqualFold
     base64 SpotifyClientId SpotifyClientSecret).
Local Abbreviation GetAlbumImages :=
  (GetAlbumImages Net Now tokenEndpoint Search Romanize UniqueIgnoringCase
     ToLower EqualFold base64 SpotifyClientId SpotifyClientSecret).
Local Abbreviation firstMatch :=
  (firstMatch Net Now tokenEndpoint Search base64 SpotifyClientId
     SpotifyClientSecret).
Local Abbreviation artistPlan := (artistPlan Romanize ToLower EqualFold).
Local Abbreviation threadStep :=
  (threadStep Net Now tokenEndpoint base64 SpotifyClientId SpotifyClientSecret).
Local Abbreviation schedStep :=
  (schedStep Net Now tokenEndpoint base64 SpotifyClientId SpotifyClientSecret).
Local Abbreviation run :=
  (run Net Now tokenEndpoint base64 SpotifyClientId SpotifyClientSecret).

Local Abbreviation configured := (configured SpotifyClientId SpotifyClientSecret).
Local Abbreviation tokenHeader :=
  (tokenHeader Net base64 SpotifyClientId SpotifyClientSecret).
Local Abbreviation searchSent :=
  (searchSent Net Now tokenEndpoint base64 SpotifyClientId SpotifyClientSecret).
Local Abbreviation keepsQueue := (keepsQueue Net).
Local Abbreviation checksFindStale :=
  (checksFindStale Net Now tokenEndpoint base64 SpotifyClientId SpotifyClientSecret).

Local Abbreviation NewSpotifyClient :=
  (NewSpotifyClient Net Now tokenEndpoint base64 SpotifyClientId SpotifyClientSecret
     UserAgent).

(** ** Authentication *)

(** The header [authenticate] builds before the transport sees it. *)
Definition basicHeader : string :=
  "Basic " +:+ base64 (SpotifyClientId +:+ ":" +:+ SpotifyClientSecret).

(** X6: the token request goes through the client's own transport, which
    puts the cached token on every request. With configured credentials
    [authenticate] sends one token request; it carries the Basic
    credentials only while no token is cached, and "Bearer" with the cached
    token once there is one (so also when an expired token is refreshed).
    Without credentials nothing is sent. *)
Theorem token_request_authorization (w : World) :
  trace (snd (authenticate w)) =
    trace w
    ++ (if configured
        then [TokenRequest
                (if String.eqb (accessToken (client w)) ""
                 then basicHeader
                 else "Bearer " +:+ accessToken (client w))]
        else []).
Proof.
  rewrite authenticate_trace. f_equal.
  destruct configured; [|reflexivity]. f_equal. f_equal.
  unfold Images.tokenHeader, roundTrip, basicHeader.
  destruct (String.eqb (accessToken (client w)) ""); reflexivity.
Qed.

(** X7: [authenticate] changes the client only when a token is granted.
    On any failure (credentials missing, transport error, a status other
    than 200, a body that does not parse) the client is as before; on
    success the token is the granted one, the expiry is the clock after the
    request plus the granted seconds (as an int64 count of nanoseconds),
    and the other fields, the request queue among them, are as before. *)
Theorem authenticate_stores_granted_token_only (w : World) :
  match authenticate w with
  | (Err _, w') => client w' = client w
  | (Ok _, w') =>
      exists tok expires_in,
        configured = true
        /\ tokenEndpoint (net w) (tokenHeader w) = (net w', Granted tok expires_in)
        /\ client w' =
           {| url := url (client w); userAgent := userAgent (client w);
              requestQueue := requestQueue (client w);
              accessToken := tok;
              tokenExpiry :=
                Now (net w') + wrap64 (expires_in * GoTime.Second) |}
  end.
Proof.
  unfold Images.authenticate, Images.configured, Images.tokenHeader.
  destruct (String.eqb SpotifyClientId "" || String.eqb SpotifyClientSecret "");
    [reflexivity|].
  destruct (tokenEndpoint _ _) as [net' [e|code body|e|tok expires]] eqn:Ht;
    try reflexivity.
  exists tok, expires. cbn. repeat split.
Qed.



(** ** Lookups on a client without credentials *)

Definition notConfigured : string := "Spotify client ID or secret not configured".

Lemma searchEntity_unconfigured (query : string) (ty : SearchType) (w : World) :
  tokenStale w = true -> configured = false ->
  searchEntity query ty w = (Err ("searchEntity: " +:+ notConfigured), w).
Proof.
  intros Hs Hc. unfold Images.searchEntity, Images.ensureToken, Images.authenticate.
  unfold Images.configured in Hc. apply negb_false_iff in Hc.
  rewrite Hs, Hc. reflexivity.
Qed.

Lemma firstMatch_all_fail (plan : list Strategy) (w : World) (e : string) :
  plan <> [] -> (forall q, artistSearch q w = (Err e, w)) ->
  firstMatch plan w = (Err e, w).
Proof.
  intros Hp Hf. destruct plan as [|[q pick] rest]; [contradiction|].
  cbn. unfold bind. rewrite Hf. reflexivity.
Qed.

Lemma queryLoop_all_fail (album : string) (qs : list string) (w : World) (e : string) :
  qs <> [] -> (forall q, albumSearch q w = (Err e, w)) ->
  queryLoop album qs w = (Err e, w).
Proof.
  intros Hp Hf. destruct qs as [|q rest]; [contradiction|].
  cbn. unfold bind. rewrite Hf. reflexivity.
Qed.

Lemma artistAlbumQueries_not_nil (artist album : string) :
  artistAlbumQueries Romanize artist album <> [].
Proof.
  unfold artistAlbumQueries, when.
  destruct (negb (String.eqb (Romanize album) "")),
           (negb (String.eqb (Romanize artist) "")); discriminate.
Qed.

Lemma albumOnlyQueries_not_nil (album : string) :
  albumOnlyQueries Romanize album <> [].
Proof.
  unfold albumOnlyQueries, when.
  destruct (negb (String.eqb (Romanize album) "")); discriminate.
Qed.

(** X9: a client that has no token and no credentials to get one (the
    state [NewSpotifyClient] leaves when the credentials are not
    configured) answers every lookup with the configuration error, sends
    nothing to the network and stays as it is: each search fails in
    [ensureToken] before the query goes out. For the artist lookup this
    needs at least one alias; the album lookup always has its title-only
    queries. *)
Theorem lookups_fail_without_credentials
  (n : Net) (aliases artists : list string) (album : string) :
  configured = false ->
  let w := NewSpotifyClient n in
  trace w = []
  /\ (UniqueIgnoringCase aliases <> [] ->
      GetArtistImages aliases w
      = (Err ("GetArtistImages: searchEntity: " +:+ notConfigured), w))
  /\ GetAlbumImages artists album w
     = (Err ("GetAlbumImages: searchEntity: " +:+ notConfigured), w).
Proof.
  intros Hc w.
  assert (Hw : w = {| client := {| url := spotifyBaseUrl; userAgent := UserAgent;
                                   requestQueue := Queue.NewRequestQueue 5 5;
                                   accessToken := EmptyString;
                                   tokenExpiry := GoTime.zeroTime |};
                      net := n; trace := [] |}).
  { unfold w, Images.NewSpotifyClient, Images.authenticate.
    unfold Images.configured in Hc. apply negb_false_iff in Hc. rewrite Hc.
    reflexivity. }
  assert (Hs : tokenStale w = true) by (rewrite Hw; reflexivity).
  clearbody w.
  assert (Hart : forall q, artistSearch q w
                 = (Err ("GetArtistImages: searchEntity: " +:+ notConfigured), w)).
  { intros q. unfold Images.artistSearch, wrap.
    rewrite (searchEntity_unconfigured q SearchTypeArtist w Hs Hc). reflexivity. }
  assert (Halb : forall q, albumSearch q w
                 = (Err ("GetAlbumImages: searchEntity: " +:+ notConfigured), w)).
  { intros q. unfold Images.albumSearch, wrap.
    rewrite (searchEntity_unconfigured q SearchTypeAlbum w Hs Hc). reflexivity. }
  split; [rewrite Hw; reflexivity|]. split.
  - intros Hne. unfold Images.GetArtistImages, notFound, bind.
    rewrite cascade_plan.
    rewrite (firstMatch_all_fail _ w
               ("GetArtistImages: searchEntity: " +:+ notConfigured));
      [reflexivity | | exact Hart].
    unfold Images.artistPlan, quotedStrategies.
    destruct (UniqueIgnoringCase aliases) as [|a rest]; [contradiction|].
    intros H. apply app_eq_nil in H as [_ H]. discriminate.
  - unfold Images.GetAlbumImages, notFound, orElse, bind.
    destruct (UniqueIgnoringCase artists) as [|a rest].
    + cbn. rewrite (queryLoop_all_fail album _ w _ (albumOnlyQueries_not_nil album) Halb).
      reflexivity.
    + cbn. unfold orElse, bind.
      rewrite (queryLoop_all_fail album _ w _ (artistAlbumQueries_not_nil a album) Halb).
      reflexivity.
Qed.

(** ** How many searches a lookup sends *)

Lemma searchRequests_queries (t : list Event) :
  searchRequests t = length (queries t).
Proof.
  unfold searchRequests, queries. induction t as [|[h|h q ty] t IH]; cbn;
    [reflexivity | exact IH | f_equal; exact IH].
Qed.

Lemma romanizedStrategies_length (l : list string) :
  (length (romanizedStrategies Romanize ToLower EqualFold l) <= length l)%nat.
Proof.
  unfold romanizedStrategies. induction l as [|a rest IH]; cbn; [lia|].
  destruct (String.eqb (Romanize a) ""); cbn; lia.
Qed.

Lemma artistPlan_length (l : list string) :
  (length (artistPlan l)
   <= 3 * length l + (if (1 <? length l)%nat then 1 else 0))%nat.
Proof.
  unfold Images.artistPlan, quotedStrategies, unquotedStrategies, combinedStrategies.
  rewrite !length_app, !length_map.
  pose proof (romanizedStrategies_length l).
  destruct (1 <? length l)%nat; cbn; lia.
Qed.

(** X11: a bound on the traffic of one artist lookup. With [n] distinct
    aliases [GetArtistImages] sends at most three searches per alias, and
    one more when there is more than one alias. *)
Theorem artist_lookup_search_bound (aliases : list string) (w : World) :
  let n := length (UniqueIgnoringCase aliases) in
  (searchRequests (trace (snd (GetArtistImages aliases w)))
   <= searchRequests (trace w) + 3 * n + (if (1 <? n)%nat then 1 else 0))%nat.
Proof.
  intros n. rewrite !searchRequests_queries.
  assert (Hq : queries (trace (snd (GetArtistImages aliases w)))
               = queries (trace (snd (firstMatch (artistPlan (UniqueIgnoringCase aliases)) w)))).
  { unfold Images.GetArtistImages, notFound, bind. rewrite cascade_plan.
    destruct (firstMatch _ w) as [[[img|]|e] w']; reflexivity. }
  rewrite Hq.
  edestruct firstMatch_queries as [k Hk]. rewrite Hk.
  rewrite length_app, length_take, length_map.
  pose proof (artistPlan_length (UniqueIgnoringCase aliases)) as Hlen.
  pose proof (Nat.le_min_r k (length (artistPlan (UniqueIgnoringCase aliases)))) as Hmin.
  subst n. clear Hq Hk. unfold Strategy in *.
  destruct (1 <? length (UniqueIgnoringCase aliases))%nat; lia.
Qed.

(** ** Which entity the other strategies accept *)

Lemma aliasLoop_existsb (artist : FullArtist.t) (aliases : list string) :
  aliasLoop ToLower EqualFold artist aliases
  = if existsb (nameMatches (FullArtist.Name artist)) aliases
    then firstImage artist
    else None.
Proof.
  unfold firstImage. induction aliases as [|a rest IH]; cbn; [reflexivity|].
  destruct (nameMatches (FullArtist.Name artist) a); cbn; [|exact IH].
  destruct (FullArtist.Images artist) as [|img imgs]; [|reflexivity].
  rewrite IH. destruct (existsb _ rest); reflexivity.
Qed.

(** X12: the two nested loops over the results of the combined query (for
    each artist, for each alias) take the first returned artist that has an
    image and whose name matches any one of the aliases: they are the loop
    of the other strategies, run with the test "matches some alias". *)
Theorem combined_query_accepts_any_alias
  (aliases : list string) (results : SearchResult) :
  pickCombined aliases results
  = pickArtist (fun n => existsb (nameMatches n) aliases) results.
Proof.
  unfold Images.pickCombined, pickArtist.
  destruct (Artists results) as [artists|]; [|reflexivity].
  destruct (0 <? length artists)%nat; [|reflexivity].
  induction artists as [|artist rest IH]; cbn; [reflexivity|].
  rewrite aliasLoop_existsb, IH. unfold firstImage.
  destruct (existsb _ aliases); [|reflexivity].
  destruct (FullArtist.Images artist); reflexivity.
Qed.

Lemma albumLoop_skip (album : string) (pre rest : list SimpleAlbum.t) :
  Forall (fun y => nameMatches (SimpleAlbum.Name y) album = false
                   \/ SimpleAlbum.Images y = []) pre ->
  albumLoop ToLower EqualFold album (pre ++ rest)
  = albumLoop ToLower EqualFold album rest.
Proof.
  induction 1 as [|x pre Hx _ IH]; cbn; [reflexivity|].
  destruct (nameMatches (SimpleAlbum.Name x) album); [|exact IH].
  destruct Hx as [Hx|Hx]; [discriminate|]. rewrite Hx. exact IH.
Qed.

(** X13: which album a search of the album cascade yields. Whatever the
    query was (original or romanized title, with or without artist), the
    image is the first image of the first returned album that has an image
    and whose name equals the album title as given, without regard to case,
    or contains it once both are lower-cased; albums before it either fail
    that test or have no image. Without such an album the search yields
    nothing, and so does a result without an album page. *)
Theorem album_search_takes_first_match
  (album : string) (l : list SimpleAlbum.t) (img : string) :
  (pickAlbum ToLower EqualFold album {| Artists := None; Albums := Some l |}
   = Some img <->
   exists pre x post i imgs,
     l = pre ++ x :: post
     /\ Forall (fun y => nameMatches (SimpleAlbum.Name y) album = false
                         \/ SimpleAlbum.Images y = []) pre
     /\ (EqualFold (SimpleAlbum.Name x) album = true
         \/ Contains (ToLower (SimpleAlbum.Name x)) (ToLower album) = true)
     /\ SimpleAlbum.Images x = i :: imgs
     /\ URL i = img)
  /\ pickAlbum ToLower EqualFold album {| Artists := None; Albums := None |} = None.
Proof.
  split; [|reflexivity].
  unfold pickAlbum. cbn [Albums].
  assert (Hl : (if (0 <? length l)%nat then albumLoop ToLower EqualFold album l else None)
               = albumLoop ToLower EqualFold album l) by (destruct l; reflexivity).
  rewrite Hl. clear Hl. split.
  - induction l as [|y l IH]; cbn; [discriminate|].
    intros H.
    destruct (nameMatches (SimpleAlbum.Name y) album) eqn:Hn.
    + destruct (SimpleAlbum.Images y) as [|i imgs] eqn:Hi.
      * destruct (IH H) as (pre & x & post & i & imgs & -> & Hpre & Hx & Hxi & Hu).
        exists (y :: pre), x, post, i, imgs.
        repeat split; try assumption. constructor; [right; exact Hi | exact Hpre].
      * injection H as <-. exists [], y, l, i, imgs.
        repeat split; [constructor | | exact Hi].
        unfold Images.nameMatches in Hn. apply orb_true_iff in Hn. exact Hn.
    + destruct (IH H) as (pre & x & post & i & imgs & -> & Hpre & Hx & Hxi & Hu).
      exists (y :: pre), x, post, i, imgs.
      repeat split; try assumption. constructor; [left; exact Hn | exact Hpre].
  - intros (pre & x & post & i & imgs & -> & Hpre & Hx & Hxi & Hu).
    rewrite (albumLoop_skip album pre _ Hpre). cbn.
    unfold Images.nameMatches. apply orb_true_iff in Hx. rewrite Hx, Hxi, Hu.
    reflexivity.
Qed.

(** ** The album cascade as one list of queries *)

(** The queries of [GetAlbumImages] in the order it would send them: for
    each artist the artist-and-album queries, then (with more than one
    artist) the queries on all artists at once, then the title alone. *)
Definition albumPlan (artistsUniq : list string) (album : string) : list string :=
  flat_map (fun artist => artistAlbumQueries Romanize artist album) artistsUniq
  ++ (if (1 <? length artistsUniq)%nat
      then combinedAlbumQueries Romanize artistsUniq album
      else [])
  ++ albumOnlyQueries Romanize album.

Lemma queryLoop_app (album : string) (p q : list string) (w : World) :
  queryLoop album (p ++ q) w
  = orElse Net (queryLoop album p) (queryLoop album q) w.
Proof.
  revert w. induction p as [|query p IH]; intros w; cbn; [reflexivity|].
  unfold orElse, bind.
  destruct (albumSearch query w) as [[results|e] w']; [|reflexivity].
  destruct (pickAlbum _ _ album results) as [img|]; [reflexivity|].
  rewrite IH. reflexivity.
Qed.

Lemma perArtistLoop_plan (album : string) (l : list string) (w : World) :
  perArtistLoop album l w
  = queryLoop album
      (flat_map (fun artist => artistAlbumQueries Romanize artist album) l) w.
Proof.
  revert w. induction l as [|a rest IH]; intros w; cbn; [reflexivity|].
  rewrite queryLoop_app. apply orElse_ext; [reflexivity | exact IH].
Qed.

Lemma albumCascade_plan (l : list string) (album : string) (w : World) :
  orElse Net (perArtistLoop album l)
    (orElse Net (combinedAlbumStep l album)
       (queryLoop album (albumOnlyQueries Romanize album))) w
  = queryLoop album (albumPlan l album) w.
Proof.
  unfold albumPlan. rewrite queryLoop_app.
  apply orElse_ext; [apply perArtistLoop_plan|]. intros w1.
  rewrite queryLoop_app. apply orElse_ext; [|reflexivity]. intros w2.
  unfold Images.combinedAlbumStep. destruct (1 <? length l)%nat; reflexivity.
Qed.

Lemma albumSearch_queries (query : string) (w : World) :
  match albumSearch query w with
  | (Ok _, w') => queries (trace w') = queries (trace w) ++ [query]
  | (Err _, w') =>
      queries (trace w') = queries (trace w) ++ [query]
      \/ queries (trace w') = queries (trace w)
  end.
Proof.
  unfold Images.albumSearch, wrap.
  pose proof (searchEntity_trace Net Now tokenEndpoint Search base64
                SpotifyClientId SpotifyClientSecret query SearchTypeAlbum w) as Ht.
  unfold Images.searchSent in Ht. unfold Images.searchEntity in *.
  destruct (ensureToken w) as [[[]|e] w1].
  - destruct (Search _ _ _ _) as [net' [r|e]]; cbn in Ht |- *;
      [|left]; rewrite Ht, !queries_app;
      destruct (tokenStale w && configured); cbn; rewrite ?app_nil_r; reflexivity.
  - cbn in Ht |- *. right. rewrite Ht, !queries_app.
    destruct (tokenStale w && configured); cbn; rewrite ?app_nil_r; reflexivity.
Qed.

Lemma queryLoop_queries (album : string) (qs : list string) (w : World) :
  exists k : nat,
    queries (trace (snd (queryLoop album qs w))) = queries (trace w) ++ take k qs.
Proof.
  revert w. induction qs as [|query qs IH]; intros w; cbn.
  - exists 0%nat. symmetry. apply app_nil_r.
  - unfold bind. pose proof (albumSearch_queries query w) as Hq.
    destruct (albumSearch query w) as [[results|e] w'].
    + destruct (pickAlbum _ _ album results) as [img|].
      * exists 1%nat. cbn. rewrite take_0. exact Hq.
      * destruct (IH w') as [k Hk]. exists (S k). rewrite Hk, Hq.
        cbn. rewrite <- app_assoc. reflexivity.
    + destruct Hq as [Hq|Hq].
      * exists 1%nat. cbn. rewrite take_0. exact Hq.
      * exists 0%nat. cbn. rewrite app_nil_r. exact Hq.
Qed.

(** X14: [GetAlbumImages] is one run through the list [albumPlan] that
    stops at the first query whose results hold a matching album with an
    image. The queries it sends are an initial part of that list, in its
    order; a search that fails ends the run with the error; and when the
    list is used up the result is the error "album image not found". *)
Theorem GetAlbumImages_runs_album_plan
  (artists : list string) (album : string) (w : World) :
  let plan := albumPlan (UniqueIgnoringCase artists) album in
  GetAlbumImages artists album w
  = notFound Net "GetAlbumImages: album image not found" (queryLoop album plan) w
  /\ (exists k : nat,
        queries (trace (snd (GetAlbumImages artists album w)))
        = queries (trace w) ++ take k plan)
  /\ (forall w', queryLoop album plan w = (Ok None, w') ->
        GetAlbumImages artists album w
        = (Err "GetAlbumImages: album image not found", w')).
Proof.
  intros plan.
  assert (Heq : GetAlbumImages artists album w
                = notFound Net "GetAlbumImages: album image not found"
                    (queryLoop album plan) w).
  { unfold Images.GetAlbumImages, notFound, bind.
    rewrite albumCascade_plan. reflexivity. }
  split; [exact Heq|]. split.
  - rewrite Heq. destruct (queryLoop_queries album plan w) as [k Hk].
    exists k. rewrite <- Hk. unfold notFound, bind.
    destruct (queryLoop album plan w) as [[[img|]|e] w']; reflexivity.
  - intros w' H. rewrite Heq. unfold notFound, bind. rewrite H. reflexivity.
Qed.

(** X10: lookups without names. With no alias to search for,
    [GetArtistImages] reports that no image was found without checking the
    token and without sending anything: the client and the network are as
    before. With no artist, [GetAlbumImages] searches by the title alone:
    what it sends is an initial part of the title-only queries (the
    romanized title quoted and unquoted, when there is a romanized form,
    then the title as given, quoted and unquoted). *)
Theorem lookups_without_names
  (aliases artists : list string) (album : string) (w : World) :
  (UniqueIgnoringCase aliases = [] ->
   GetArtistImages aliases w = (Err "GetArtistImages: artist image not found", w))
  /\ (UniqueIgnoringCase artists = [] ->
      GetAlbumImages artists album w
      = notFound Net "GetAlbumImages: album image not found"
          (queryLoop album (albumOnlyQueries Romanize album)) w
      /\ exists k : nat,
           queries (trace (snd (GetAlbumImages artists album w)))
           = queries (trace w) ++ take k (albumOnlyQueries Romanize album)).
Proof.
  split.
  - intros H. unfold Images.GetArtistImages. rewrite H. reflexivity.
  - intros H.
    assert (Heq : GetAlbumImages artists album w
                  = notFound Net "GetAlbumImages: album image not found"
                      (queryLoop album (albumOnlyQueries Romanize album)) w).
    { unfold Images.GetAlbumImages. rewrite H. reflexivity. }
    split; [exact Heq|]. rewrite Heq.
    destruct (queryLoop_queries album (albumOnlyQueries Romanize album) w) as [k Hk].
    exists k. rewrite <- Hk. unfold notFound, bind.
    destruct (queryLoop album _ w) as [[[img|]|e] w']; reflexivity.
Qed.

Lemma artistAlbumQueries_length (artist album : string) :
  (2 <= length (artistAlbumQueries Romanize artist album) <= 8)%nat
  /\ (length (artistAlbumQueries Romanize artist album) = 8%nat <->
      Romanize artist <> EmptyString /\ Romanize album <> EmptyString).
Proof.
  unfold artistAlbumQueries, when.
  destruct (String.eqb_spec (Romanize album) ""),
           (String.eqb_spec (Romanize artist) ""); cbn;
    (split; [lia|]); split; try discriminate; try tauto; intros [? ?]; contradiction.
Qed.

Lemma flat_map_length_le {A B} (f : A -> list B) (l : list A) (c : nat) :
  (forall a, length (f a) <= c)%nat ->
  (length (flat_map f l) <= c * length l)%nat.
Proof.
  intros H. induction l as [|a l IH]; cbn; [lia|].
  rewrite length_app. specialize (H a). lia.
Qed.

Lemma albumPlan_length (l : list string) (album : string) :
  (length (albumPlan l album)
   <= 8 * length l + (if (1 <? length l)%nat then 2 else 0) + 4)%nat.
Proof.
  unfold albumPlan. rewrite !length_app.
  pose proof (flat_map_length_le
                (fun artist => artistAlbumQueries Romanize artist album) l 8) as Hf.
  assert (Hc : (length (combinedAlbumQueries Romanize l album) <= 2)%nat).
  { unfold combinedAlbumQueries, when.
    destruct (negb (String.eqb (Romanize album) "")); cbn; lia. }
  assert (Ho : (length (albumOnlyQueries Romanize album) <= 4)%nat).
  { unfold albumOnlyQueries, when.
    destruct (negb (String.eqb (Romanize album) "")); cbn; lia. }
  specialize (Hf (fun a => proj2 (proj1 (artistAlbumQueries_length a album)))).
  destruct (1 <? length l)%nat; cbn [length]; lia.
Qed.

(** X15: a bound on the traffic of one album lookup. For each artist
    between two and eight queries are built (eight exactly when both the
    artist and the album have a romanized form), and with [n] distinct
    artists [GetAlbumImages] sends at most [8 n + 4] searches, and two more
    when there is more than one artist. *)
Theorem album_lookup_search_bound
  (artists : list string) (artist album : string) (w : World) :
  let n := length (UniqueIgnoringCase artists) in
  (2 <= length (artistAlbumQueries Romanize artist album) <= 8)%nat
  /\ (length (artistAlbumQueries Romanize artist album) = 8%nat <->
      Romanize artist <> EmptyString /\ Romanize album <> EmptyString)
  /\ (searchRequests (trace (snd (GetAlbumImages artists album w)))
      <= searchRequests (trace w) + 8 * n
         + (if (1 <? n)%nat then 2 else 0) + 4)%nat.
Proof.
  intros n. destruct (artistAlbumQueries_length artist album) as [H1 H2].
  split; [exact H1|]. split; [exact H2|].
  rewrite !searchRequests_queries.
  assert (Hq : queries (trace (snd (GetAlbumImages artists album w)))
               = queries (trace (snd (queryLoop album
                                        (albumPlan (UniqueIgnoringCase artists) album) w)))).
  { unfold Images.GetAlbumImages, notFound, bind. rewrite albumCascade_plan.
    destruct (queryLoop _ _ w) as [[[img|]|e] w']; reflexivity. }
  rewrite Hq.
  destruct (queryLoop_queries album (albumPlan (UniqueIgnoringCase artists) album) w)
    as [k Hk].
  rewrite Hk, length_app, length_take.
  pose proof (albumPlan_length (UniqueIgnoringCase artists) album) as Hlen.
  subst n. clear Hq Hk.
  destruct (1 <? length (UniqueIgnoringCase artists))%nat; lia.
Qed.

(** ** Lookups after [Shutdown] *)

(** A step that runs on a shut-down client as on the client itself. *)
Definition ignoresShutdown {A} (m : M A) : Prop :=
  forall w, m (Shutdown Net w) = (fst (m w), Shutdown Net (snd (m w))).

Lemma ignoresShutdown_ret {A} (a : A) : ignoresShutdown (ret Net a).
Proof. intros w. reflexivity. Qed.

Lemma ignoresShutdown_bind {A B} (m : M A) (k : A -> M B) :
  ignoresShutdown m -> (forall a, ignoresShutdown (k a)) ->
  ignoresShutdown (bind Net m k).
Proof.
  intros Hm Hk w. unfold bind. rewrite Hm.
  destruct (m w) as [[a|e] w']; cbn; [apply Hk | reflexivity].
Qed.

Lemma ignoresShutdown_wrap {A} (prefix : string) (m : M A) :
  ignoresShutdown m -> ignoresShutdown (wrap Net prefix m).
Proof.
  intros Hm w. unfold wrap. rewrite Hm.
  destruct (m w) as [[a|e] w']; reflexivity.
Qed.

Lemma ignoresShutdown_ensureToken : ignoresShutdown ensureToken.
Proof.
  intros w. unfold Images.ensureToken, Images.tokenStale. cbn.
  destruct (String.eqb (accessToken (client w)) "" || _); [|reflexivity].
  unfold Images.authenticate. cbn.
  destruct (String.eqb SpotifyClientId "" || String.eqb SpotifyClientSecret "");
    [reflexivity|].
  unfold roundTrip. cbn.
  destruct (tokenEndpoint _ _) as [net' [e|code body|e|tok expires]]; reflexivity.
Qed.

Lemma ignoresShutdown_searchEntity (query : string) (ty : SearchType) :
  ignoresShutdown (searchEntity query ty).
Proof.
  intros w. unfold Images.searchEntity. rewrite ignoresShutdown_ensureToken.
  destruct (ensureToken w) as [[[]|e] w1]; cbn; [|reflexivity].
  unfold roundTrip. cbn.
  destruct (Search _ _ _ _) as [net' [r|e]]; reflexivity.
Qed.

Lemma ignoresShutdown_orElse (a b : M (option string)) :
  ignoresShutdown a -> ignoresShutdown b -> ignoresShutdown (orElse Net a b).
Proof.
  intros Ha Hb. apply ignoresShutdown_bind; [exact Ha|].
  intros [img|]; [apply ignoresShutdown_ret | exact Hb].
Qed.

Lemma ignoresShutdown_notFound (msg : string) (m : M (option string)) :
  ignoresShutdown m -> ignoresShutdown (notFound Net msg m).
Proof.
  intros Hm. apply ignoresShutdown_bind; [exact Hm|].
  intros [img|]; [apply ignoresShutdown_ret | intros w; reflexivity].
Qed.

Lemma ignoresShutdown_firstMatch (plan : list Strategy) :
  ignoresShutdown (firstMatch plan).
Proof.
  induction plan as [|[query pick] plan IH]; cbn; [apply ignoresShutdown_ret|].
  apply ignoresShutdown_bind;
    [apply ignoresShutdown_wrap, ignoresShutdown_searchEntity|].
  intros results. destruct (pick results); [apply ignoresShutdown_ret | exact IH].
Qed.

Lemma ignoresShutdown_queryLoop (album : string) (qs : list string) :
  ignoresShutdown (queryLoop album qs).
Proof.
  induction qs as [|query qs IH]; cbn; [apply ignoresShutdown_ret|].
  apply ignoresShutdown_bind;
    [apply ignoresShutdown_wrap, ignoresShutdown_searchEntity|].
  intros results.
  destruct (pickAlbum _ _ album results); [apply ignoresShutdown_ret | exact IH].
Qed.

(** X16: [Shutdown] shuts the request queue and nothing else; since no
    search goes through the queue, a shut-down client goes on searching.
    [searchEntity], [GetArtistImages] and [GetAlbumImages] give the same
    result, send the same requests and store the same token on a shut-down
    client as on the client before the shutdown. *)
Theorem lookups_ignore_shutdown
  (aliases artists : list string) (album query : string) (ty : SearchType)
  (w : World) :
  Queue.closed (requestQueue (client (Shutdown Net w))) = true
  /\ searchEntity query ty (Shutdown Net w)
     = (fst (searchEntity query ty w), Shutdown Net (snd (searchEntity query ty w)))
  /\ GetArtistImages aliases (Shutdown Net w)
     = (fst (GetArtistImages aliases w), Shutdown Net (snd (GetArtistImages aliases w)))
  /\ GetAlbumImages artists album (Shutdown Net w)
     = (fst (GetAlbumImages artists album w),
        Shutdown Net (snd (GetAlbumImages artists album w))).
Proof.
  split; [reflexivity|]. split; [apply ignoresShutdown_searchEntity|]. split.
  - pose proof (ignoresShutdown_notFound "GetArtistImages: artist image not found"
                  _ (ignoresShutdown_firstMatch
                       (artistPlan (UniqueIgnoringCase aliases))) w) as H.
    unfold Images.GetArtistImages, notFound, bind in *.
    rewrite !cascade_plan. exact H.
  - pose proof (ignoresShutdown_notFound "GetAlbumImages: album image not found"
                  _ (ignoresShutdown_queryLoop album
                       (albumPlan (UniqueIgnoringCase artists) album)) w) as H.
    unfold Images.GetAlbumImages, notFound, bind in *.
    rewrite !albumCascade_plan. exact H.
Qed.

(** ** Callers that find the token fresh *)

Lemma schedStep_fresh (w : World) (cfg : Config Net) (i : nat) :
  tokenStale w = false ->
  shared cfg = w ->
  Forall (fun pc => pc = AtCheck \/ pc = Finished (Ok tt)) (threads cfg) ->
  shared (schedStep cfg i) = w
  /\ Forall (fun pc => pc = AtCheck \/ pc = Finished (Ok tt))
       (threads (schedStep cfg i)).
Proof.
  intros Hs Hw Hall. unfold Images.schedStep.
  destruct (threads cfg !! i) as [pc|] eqn:Hi; [|split; assumption].
  pose proof (Forall_lookup_1 (fun pc => pc = AtCheck \/ pc = Finished (Ok tt))
                _ _ _ Hall Hi) as [-> | ->]; cbn.
  - rewrite Hw, Hs. cbn. split; [reflexivity|].
    apply Forall_insert; [exact Hall | right; reflexivity].
  - split; [exact Hw|]. apply Forall_insert; [exact Hall | right; reflexivity].
Qed.

(** X17: while the cached token is not stale, concurrent callers of
    [ensureToken] do not touch the shared client at all. However many
    callers there are and however their steps interleave, no token request
    is sent, the client, the network and the trace stay as they were, and
    every caller that has finished has finished without error. *)
Theorem fresh_token_callers_send_nothing (n : nat) (sched : list nat) (w : World) :
  tokenStale w = false ->
  shared (run sched (callers Net n w)) = w
  /\ Forall (fun pc => pc = AtCheck \/ pc = Finished (Ok tt))
       (threads (run sched (callers Net n w))).
Proof.
  intros Hs. unfold Images.run.
  assert (H0 : shared (callers Net n w) = w
               /\ Forall (fun pc => pc = AtCheck \/ pc = Finished (Ok tt))
                    (threads (callers Net n w))).
  { split; [reflexivity|]. cbn. apply Forall_forall. intros pc Hin.
    apply elem_of_replicate in Hin as [-> _]. left. reflexivity. }
  revert H0. generalize (callers Net n w). 
  induction sched as [|i sched IH]; intros cfg [Hw Hall]; cbn; [auto|].
  apply IH. apply schedStep_fresh; assumption.
Qed.

(** ** A client with working credentials *)


End ClientFurther.

(** * Package strings *)

Section StringsProperties.

Import Strings.

Lemma prefix_spec (p s : string) :
  String.prefix p s = true <-> exists post, s = p +:+ post.
Proof.
  revert s. induction p as [|c p IH]; intros s.
  - split; [intros _; exists s; reflexivity | intros _; destruct s; reflexivity].
  - destruct s as [|d s]; cbn.
    + split; [discriminate | intros [post H]; discriminate].
    + destruct (Ascii.ascii_dec c d) as [->|Hne].
      * rewrite IH. split; intros [post H]; exists post.
        -- rewrite H. reflexivity.
        -- injection H as ->. reflexivity.
      * split; [discriminate|]. intros [post H]. injection H as H1 _.
        congruence.
Qed.

Lemma Contains_spec (s substr : string) :
  Contains s substr = true <-> exists pre post, s = pre +:+ substr +:+ post.
Proof.
  induction s as [|c s IH]; cbn [Contains].
  - rewrite orb_false_r, prefix_spec. split.
    + intros [post H]. exists EmptyString, post. exact H.
    + intros (pre & post & H). destruct pre as [|d pre]; [|discriminate].
      exists post. exact H.
  - rewrite orb_true_iff, prefix_spec, IH. split.
    + intros [[post H] | (pre & post & H)].
      * exists EmptyString, post. exact H.
      * exists (String c pre), post. cbn. rewrite H. reflexivity.
    + intros (pre & post & H). destruct pre as [|d pre].
      * left. exists post. exact H.
      * right. cbn in H. injection H as _ H. exists pre, post. exact H.
Qed.

Lemma append_empty_r (s : string) : s +:+ EmptyString = s.
Proof.
  induction s as [|c s IH]; [reflexivity|].
  change (String c (s +:+ EmptyString) = String c s). f_equal. exact IH.
Qed.

(** X18: [Contains] is the substring test of Go's [strings.Contains] on
    byte strings: it holds exactly when the string is some bytes, then the
    substring, then some bytes. In particular every string contains the
    empty string and itself. *)
Theorem Contains_substring (s substr : string) :
  (Contains s substr = true <-> exists pre post, s = pre +:+ substr +:+ post)
  /\ Contains s EmptyString = true
  /\ Contains s s = true.
Proof.
  split; [apply Contains_spec|]. split.
  - apply Contains_spec. exists EmptyString, s. reflexivity.
  - apply Contains_spec. exists EmptyString, EmptyString.
    cbn. symmetry. apply append_empty_r.
Qed.

End StringsProperties.

(** ** The further properties on concrete worlds *)

Section ClientFurtherRuns.

Import Strings Images Concrete.


Lemma lookups_fail_without_credentials_witness :
  let w := NewSpotifyClient Net Now tokenEndpoint base64 "" "" "koito" T0 in
  trace w = []
  /\ (UniqueIgnoringCase [kanji] <> [] ->
      GetArtistImages Net Now tokenEndpoint (searchIn yonezu) Romanize
        UniqueIgnoringCase ToLower EqualFold base64 "" "" [kanji] w
      = (Err ("GetArtistImages: searchEntity: " +:+ notConfigured), w))
  /\ GetAlbumImages Net Now tokenEndpoint (searchIn yonezu) Romanize
       UniqueIgnoringCase ToLower EqualFold base64 "" "" [kanji] "STRAY SHEEP" w
     = (Err ("GetAlbumImages: searchEntity: " +:+ notConfigured), w).
Proof.
  exact (lookups_fail_without_credentials Net Now tokenEndpoint (searchIn yonezu)
           Romanize UniqueIgnoringCase ToLower EqualFold base64 "" "" "koito"
           T0 [kanji] [kanji] "STRAY SHEEP" eq_refl).
Defined.

Lemma lookups_without_names_witness :
  GetArtistImages Net Now tokenEndpoint (searchIn yonezu) Romanize
    UniqueIgnoringCase ToLower EqualFold base64 "id" "secret" [] newClient
  = (Err "GetArtistImages: artist image not found", newClient).
Proof.
  exact (proj1 (lookups_without_names Net Now tokenEndpoint (searchIn yonezu)
                  Romanize UniqueIgnoringCase ToLower EqualFold base64
                  "id" "secret" [] [] "STRAY SHEEP" newClient) eq_refl).
Defined.

Lemma fresh_token_callers_send_nothing_witness :
  shared (interleave [2; 0; 1; 1; 0; 2]%nat (callers Net 3 newClient)) = newClient
  /\ Forall (fun pc => pc = AtCheck \/ pc = Finished (Ok tt))
       (threads (interleave [2; 0; 1; 1; 0; 2]%nat (callers Net 3 newClient))).
Proof.
  exact (fresh_token_callers_send_nothing Net Now tokenEndpoint base64
           "id" "secret" 3 [2; 0; 1; 1; 0; 2]%nat newClient eq_refl).
Defined.


End ClientFurtherRuns.

(** * The key of the duplicate map *)

Section DedupKeyProperties.

Import Strings Importer Concrete.

Lemma append_cons (c : ascii) (s t : string) :
  String c s +:+ t = String c (s +:+ t).
Proof. reflexivity. Qed.

Lemma append_assoc (s t u : string) : (s +:+ t) +:+ u = s +:+ t +:+ u.
Proof.
  induction s as [|c s IH]; [reflexivity|].
  rewrite !append_cons, IH. reflexivity.
Qed.

Lemma append_same_l (p s : string) : p +:+ s = p -> s = EmptyString.
Proof.
  induction p as [|c p IH]; intros H; [exact H|].
  rewrite append_cons in H. injection H as H. exact (IH H).
Qed.

Lemma Contains_tail (c : ascii) (s substr : string) :
  Contains (String c s) substr = false -> Contains s substr = false.
Proof.
  intros H. apply not_true_is_false. intros Hs.
  apply Contains_spec in Hs as (pre & post & ->).
  assert (Ht : Contains (String c (pre +:+ substr +:+ post)) substr = true).
  { apply Contains_spec. exists (String c pre), post. reflexivity. }
  congruence.
Qed.

Lemma Contains_head_sep (s : string) : Contains (String "|" s) "|" = true.
Proof. apply Contains_spec. exists EmptyString, s. reflexivity. Qed.

(** A string is cut at its first separator in one way only. *)
Lemma split_at_first_sep (a1 a2 r1 r2 : string) :
  Contains a1 "|" = false -> Contains a2 "|" = false ->
  a1 +:+ "|" +:+ r1 = a2 +:+ "|" +:+ r2 ->
  a1 = a2 /\ r1 = r2.
Proof.
  revert a2. induction a1 as [|c a1 IH]; intros [|d a2] H1 H2 H.
  - change (String "|" r1 = String "|" r2) in H.
    injection H as H. split; [reflexivity | exact H].
  - change (String "|" r1 = String d (a2 +:+ "|" +:+ r2)) in H.
    injection H as Hd _. subst d.
    rewrite Contains_head_sep in H2. discriminate.
  - change (String c (a1 +:+ "|" +:+ r1) = String "|" r2) in H.
    injection H as Hc _. subst c.
    rewrite Contains_head_sep in H1. discriminate.
  - change (String c (a1 +:+ "|" +:+ r1) = String d (a2 +:+ "|" +:+ r2)) in H.
    injection H as Hc H. subst d.
    destruct (IH a2 (Contains_tail _ _ _ H1) (Contains_tail _ _ _ H2) H) as [-> ->].
    split; reflexivity.
Qed.

(** C10: the key of the duplicate map is the artist name, "|", the track
    name, "|" and the album name, and it does not determine the three
    names once a name holds the separator. For any strings [p], [q], [r], a
    record of artist [p|q] and track [r] and a record of artist [p] and
    track [q|r] (same album) are different triples with one key, so that
    the second, coming less than five seconds after the first has been
    remembered, counts as its duplicate; a file with artist "AC|DC", track
    "Live" and then artist "AC", track "DC|Live" one second later submits
    the first only. Among records whose artist and track names hold no
    separator the key does determine the three names. *)
Theorem dedupKey_not_injective :
  (forall item : SpotifyExportItem,
     dedupKey item
     = ArtistName item +:+ "|" +:+ TrackName item +:+ "|" +:+ AlbumName item)
  /\ (forall (p q r album : string) (t1 t2 : GoTime.Time) (ms1 ms2 : Z)
             (m : gmap string Z),
        let a := play (p +:+ "|" +:+ q) r album t1 ms1 in
        let b := play p (q +:+ "|" +:+ r) album t2 ms2 in
        Contains (ArtistName a) "|" = true
        /\ (ArtistName a, TrackName a, AlbumName a)
           <> (ArtistName b, TrackName b, AlbumName b)
        /\ dedupKey a = dedupKey b
        /\ (t2 - t1 < 5 * GoTime.Second ->
            isDuplicate (<[dedupKey a := Timestamp a]> m) b = true))
  /\ calls (fst (importFile [play "AC|DC" "Live" "X" T0 180000;
                             play "AC" "DC|Live" "X" (T0 + GoTime.Second) 180000]))
     = [mkOpts false (play "AC|DC" "Live" "X" T0 180000)]
  /\ (forall a b : SpotifyExportItem,
        Contains (ArtistName a) "|" = false ->
        Contains (TrackName a) "|" = false ->
        Contains (ArtistName b) "|" = false ->
        Contains (TrackName b) "|" = false ->
        dedupKey a = dedupKey b ->
        (ArtistName a, TrackName a, AlbumName a)
        = (ArtistName b, TrackName b, AlbumName b)).
Proof.
  split; [reflexivity|]. split; [|split].
  - intros p q r album t1 t2 ms1 ms2 m a b.
    assert (Hk : dedupKey a = dedupKey b).
    { unfold dedupKey, a, b, play. cbn [ArtistName TrackName AlbumName].
      rewrite !append_assoc. reflexivity. }
    split; [apply Contains_spec; exists p, q; reflexivity|].
    split.
    { cbn. intros H. injection H as H _. apply append_same_l in H. discriminate. }
    split; [exact Hk|].
    intros Hlt. apply isDuplicate_spec. exists t1.
    rewrite <- Hk, lookup_insert_eq. split; [reflexivity | exact Hlt].
  - vm_compute. reflexivity.
  - intros a b Ha Hta Hb Htb H. unfold dedupKey in H.
    apply split_at_first_sep in H as [H1 H]; [|assumption|assumption].
    apply split_at_first_sep in H as [H2 H3]; [|assumption|assumption].
    rewrite H1, H2, H3. reflexivity.
Qed.

End DedupKeyProperties.
